(** * blas/base/wasm/drotm

    A shallow embedding of the WebAssembly routine that applies a modified
    Givens plane rotation to two strided double-precision vectors, and of
    the JavaScript wrappers around it.

    - [c_drotm_ndarray], [c_drotm]: the two functions exported by the
      WebAssembly binary that [index.mjs] embeds (functions 2 and 1 of its
      code section), instruction by instruction.
    - [Module_main], [Module_ndarray]: [lib/module.js].
    - [Routine_main], [Routine_ndarray]: the routine class bundled in
      [index.mjs], over its external collaborators.

    Doubles are Rocq's primitive binary64 floats, which have a single
    not-a-number: the payload of a NaN is not modelled. 32-bit integers
    are integers of [Z] with the wrap-around written out. *)

From Stdlib Require Import ZArith Lia Bool List Floats.
From stdpp Require Import base list.
Import ListNotations.
Local Open Scope Z_scope.

(** ** 32-bit integers *)

Module I32.

Definition modulus : Z := 2 ^ 32.
Definition half : Z := 2 ^ 31.

(** The value of an [i32] is kept as its signed representative. [wrap] is
    also what the JavaScript engine does to an integer argument of an
    exported function ([ToInt32]). *)
Definition wrap (z : Z) : Z := (z + half) mod modulus - half.

(** The same 32 bits read as an address. *)
Definition unsigned (z : Z) : Z := z mod modulus.

Definition in_range (z : Z) : Prop := - half <= z < half.

Definition add (a b : Z) : Z := wrap (a + b).
Definition sub (a b : Z) : Z := wrap (a - b).
Definition mul (a b : Z) : Z := wrap (a * b).
Definition shl (a k : Z) : Z := wrap (a * 2 ^ k).

Definition eq (a b : Z) : bool := a =? b.
Definition ne (a b : Z) : bool := negb (a =? b).
Definition le_s (a b : Z) : bool := a <=? b.

End I32.

(** ** Linear memory

    The memory is seen as the machine's [Float64Array] view of it: a list
    of binary64 cells, cell [k] holding bytes [8k .. 8k+7]; its size in
    bytes is eight times the number of cells, and nothing below needs it
    to be a whole number of pages. Every load and store is recorded, in
    order, in [log]. *)

Inductive event : Type :=
  | Rd (addr : Z) (v : float)
  | Wr (addr : Z) (v : float).

Record state : Type := State { cells : list float; log : list event }.

(** [OutOfBounds] is the machine's trap. [Unaligned] marks an access the
    cell view cannot express (a byte address that is not a multiple of 8,
    which the machine would serve from the bytes of two cells): the
    embedding stops there. [OutOfFuel] is the embedding's own. [Thrown]
    is an exception of the JavaScript code around the module. *)
Inductive error : Type := OutOfBounds | Unaligned | OutOfFuel | Thrown.

(** An error carries the state in which it was raised: what was written
    before a trap stays written. *)
Inductive result (S A : Type) : Type :=
  | Ok (a : A) (s : S)
  | Err (e : error) (s : S).
Arguments Ok {S A} a s.
Arguments Err {S A} e s.

Definition M (A : Type) : Type := state -> result state A.

Definition ret {S A : Type} (a : A) : S -> result S A := fun s => Ok a s.

Definition bind {S A B : Type} (c : S -> result S A) (k : A -> S -> result S B)
  : S -> result S B :=
  fun s => match c s with
           | Ok a s' => k a s'
           | Err e s' => Err e s'
           end.

Definition throw {S A : Type} (e : error) : S -> result S A := fun s => Err e s.

Notation "x <- c ;; k" := (bind c (fun x => k))
  (at level 100, c at next level, right associativity).
Notation "c ;; k" := (bind c (fun _ => k))
  (at level 100, right associativity).

Definition mem_size (s : state) : Z := 8 * Z.of_nat (length (cells s)).

(** Effective address of an access: the [i32] operand read unsigned, plus
    the instruction's static offset. *)
Definition effective (base k : Z) : Z := I32.unsigned base + k.

Definition cell_of (ea : Z) : nat := Z.to_nat (ea / 8).

(** [f64.load offset=k] *)
Definition f64_load (base k : Z) : M float := fun s =>
  let ea := effective base k in
  if mem_size s <? ea + 8 then Err OutOfBounds s
  else if negb (ea mod 8 =? 0) then Err Unaligned s
  else match cells s !! cell_of ea with
       | Some v => Ok v (State (cells s) (log s ++ [Rd ea v]))
       | None => Err OutOfBounds s
       end.

(** [f64.store offset=k] *)
Definition f64_store (base k : Z) (v : float) : M unit := fun s =>
  let ea := effective base k in
  if mem_size s <? ea + 8 then Err OutOfBounds s
  else if negb (ea mod 8 =? 0) then Err Unaligned s
  else Ok tt (State (<[cell_of ea := v]> (cells s)) (log s ++ [Wr ea v])).

(** ** The kernel: function 2 of the binary, [c_drotm_ndarray]

    Parameters are locals 0..7:
    [N X strideX offsetX Y strideY offsetY param]; locals 8..13 are
    doubles, 14 and 15 integers. The function is one block:
<<
    block
      local.get 0  i32.const 0  i32.le_s  br_if 0
      local.get 7  f64.load  local.tee 8  f64.const -2  f64.eq  br_if 0
      local.get 2  local.get 5  i32.ne
      local.get 2  i32.const 0  i32.le_s  i32.or  i32.eqz
      if
        local.get 8  f64.const 0  f64.lt  if  (loads, loop)  end
        local.get 8  f64.const 0  f64.eq  if  (loads, loop)  end
        (loads, loop)
      end
      local.get 8  f64.const 0  f64.lt  if  (loads, loop)  end
      local.get 8  f64.const 0  f64.eq  if  (loads, loop)  end
      (loads, loop)
    end
>>
    Every loop leaves the block when its counter equals [N]. *)

(** *** Loop bodies of the branch taken when [strideX == strideY > 0]

    One index (local 3) serves both vectors: the byte offset [ix << 3]
    (local 5) is added to [X] and to [Y]. For [dflag < 0]:
<<
    local.get 1  local.get 3  i32.const 3  i32.shl  local.tee 5  i32.add
    local.tee 7
    local.get 7  f64.load  local.tee 12  local.get 11  f64.mul
    local.get 10
    local.get 4  local.get 5  i32.add  local.tee 5  f64.load  local.tee 13
    f64.mul  f64.add  f64.store
    local.get 5
    local.get 12  local.get 9  f64.mul
    local.get 8  local.get 13  f64.mul  f64.add  f64.store
>>
    with [h22 h21 h12 h11] in locals 8, 9, 10, 11. The body for
    [dflag == 0] forms both addresses and loads from [Y] before it loads
    from [X]. *)

Definition body_same_neg (X Y : Z) (h11 h21 h12 h22 : float) (ix : Z) : M unit :=
  let off := I32.shl ix 3 in
  let px := I32.add X off in
  w <- f64_load px 0 ;;
  let py := I32.add Y off in
  z <- f64_load py 0 ;;
  f64_store px 0 (w * h11 + h12 * z)%float ;;
  f64_store py 0 (w * h21 + h22 * z)%float.

Definition body_same_zero (X Y : Z) (h21 h12 : float) (ix : Z) : M unit :=
  let off := I32.shl ix 3 in
  let px := I32.add X off in
  let py := I32.add Y off in
  z <- f64_load py 0 ;;
  w <- f64_load px 0 ;;
  f64_store px 0 (z * h12 + w)%float ;;
  f64_store py 0 (z + w * h21)%float.

Definition body_same_pos (X Y : Z) (h11 h22 : float) (ix : Z) : M unit :=
  let off := I32.shl ix 3 in
  let px := I32.add X off in
  w <- f64_load px 0 ;;
  let py := I32.add Y off in
  z <- f64_load py 0 ;;
  f64_store px 0 (w * h11 + z)%float ;;
  f64_store py 0 (z * h22 - w)%float.

(** *** Loop bodies of the general branch

    [ix] is local 3 and [iy] is local 6, the parameter [offsetY] itself;
    the addresses are [X + (ix << 3)] and [Y + (iy << 3)]. *)

Definition body_gen_neg (X Y : Z) (h11 h21 h12 h22 : float) (ix iy : Z) : M unit :=
  let px := I32.add X (I32.shl ix 3) in
  w <- f64_load px 0 ;;
  let py := I32.add Y (I32.shl iy 3) in
  z <- f64_load py 0 ;;
  f64_store px 0 (w * h11 + h12 * z)%float ;;
  f64_store py 0 (w * h21 + h22 * z)%float.

Definition body_gen_zero (X Y : Z) (h21 h12 : float) (ix iy : Z) : M unit :=
  let px := I32.add X (I32.shl ix 3) in
  let py := I32.add Y (I32.shl iy 3) in
  z <- f64_load py 0 ;;
  w <- f64_load px 0 ;;
  f64_store px 0 (z * h12 + w)%float ;;
  f64_store py 0 (z + w * h21)%float.

Definition body_gen_pos (X Y : Z) (h11 h22 : float) (ix iy : Z) : M unit :=
  let px := I32.add X (I32.shl ix 3) in
  w <- f64_load px 0 ;;
  let py := I32.add Y (I32.shl iy 3) in
  z <- f64_load py 0 ;;
  f64_store px 0 (w * h11 + z)%float ;;
  f64_store py 0 (z * h22 - w)%float.

(** *** The loops

    [loop: if N == i then leave; body; i = i + 1; (iy = strideY + iy;)
    ix = strideX + ix; continue]. The counter [i] is local 6 in the first
    branch and local 7 in the general one. Each trip of the loop spends
    one unit of fuel. *)

Fixpoint loop_same (fuel : nat) (body : Z -> M unit) (N strideX i ix : Z) : M unit :=
  match fuel with
  | O => throw OutOfFuel
  | S fuel' =>
      if I32.eq N i then ret tt
      else body ix ;;
           loop_same fuel' body N strideX (I32.add i 1) (I32.add strideX ix)
  end.

Fixpoint loop_gen (fuel : nat) (body : Z -> Z -> M unit) (N strideX strideY i ix iy : Z)
  : M unit :=
  match fuel with
  | O => throw OutOfFuel
  | S fuel' =>
      if I32.eq N i then ret tt
      else body ix iy ;;
           loop_gen fuel' body N strideX strideY
             (I32.add i 1) (I32.add strideX ix) (I32.add strideY iy)
  end.

(** Fuel for a loop that counts from 0 up to [N]. *)
Definition fuel_for (N : Z) : nat := S (Z.to_nat N).

(** What the function does once [N <= 0] is excluded; [N] is then only
    the bound of the loops. *)
Definition rotate (N X strideX offsetX Y strideY offsetY param : Z) : M unit :=
  dflag <- f64_load param 0 ;;
  if (dflag =? -2)%float then ret tt
  else if negb (I32.ne strideX strideY || I32.le_s strideX 0) then
    if (dflag <? 0)%float then
      h22 <- f64_load param 32 ;;
      h21 <- f64_load param 16 ;;
      h12 <- f64_load param 24 ;;
      h11 <- f64_load param 8 ;;
      loop_same (fuel_for N) (body_same_neg X Y h11 h21 h12 h22) N strideX 0 offsetX
    else if (dflag =? 0)%float then
      h21 <- f64_load param 16 ;;
      h12 <- f64_load param 24 ;;
      loop_same (fuel_for N) (body_same_zero X Y h21 h12) N strideX 0 offsetX
    else
      h22 <- f64_load param 32 ;;
      h11 <- f64_load param 8 ;;
      loop_same (fuel_for N) (body_same_pos X Y h11 h22) N strideX 0 offsetX
  else
    if (dflag <? 0)%float then
      h22 <- f64_load param 32 ;;
      h21 <- f64_load param 16 ;;
      h12 <- f64_load param 24 ;;
      h11 <- f64_load param 8 ;;
      loop_gen (fuel_for N) (body_gen_neg X Y h11 h21 h12 h22)
        N strideX strideY 0 offsetX offsetY
    else if (dflag =? 0)%float then
      h21 <- f64_load param 16 ;;
      h12 <- f64_load param 24 ;;
      loop_gen (fuel_for N) (body_gen_zero X Y h21 h12)
        N strideX strideY 0 offsetX offsetY
    else
      h22 <- f64_load param 32 ;;
      h11 <- f64_load param 8 ;;
      loop_gen (fuel_for N) (body_gen_pos X Y h11 h22)
        N strideX strideY 0 offsetX offsetY.

Definition c_drotm_ndarray (N X strideX offsetX Y strideY offsetY param : Z) : M unit :=
  if I32.le_s N 0 then ret tt
  else rotate N X strideX offsetX Y strideY offsetY param.

(** ** Function 1 of the binary, [c_drotm]
<<
    local.get 0  local.get 1  local.get 2
    i32.const 1  local.get 0  i32.sub  local.tee 0  local.get 2  i32.mul
    i32.const 0  local.get 2  i32.const 0  i32.le_s  select
    local.get 3  local.get 4
    local.get 0  local.get 4  i32.mul
    i32.const 0  local.get 4  i32.const 0  i32.le_s  select
    local.get 5  call 2
>>
    [select a b c] is [a] when [c] is not zero. The first argument of the
    call is read before local 0 is overwritten with [1 - N]. *)
Definition c_drotm (N X strideX Y strideY param : Z) : M unit :=
  let t := I32.sub 1 N in
  c_drotm_ndarray N
    X strideX (if I32.le_s strideX 0 then I32.mul t strideX else 0)
    Y strideY (if I32.le_s strideY 0 then I32.mul t strideY else 0)
    param.

(** ** [lib/module.js]

    The methods pass their arguments to the exports, where each becomes an
    [i32], and return [yptr] as it was given. *)

Definition Module_main (N xptr strideX yptr strideY pptr : Z) : M Z :=
  c_drotm (I32.wrap N) (I32.wrap xptr) (I32.wrap strideX)
          (I32.wrap yptr) (I32.wrap strideY) (I32.wrap pptr) ;;
  ret yptr.

Definition Module_ndarray (N xptr strideX offsetX yptr strideY offsetY pptr : Z) : M Z :=
  c_drotm_ndarray (I32.wrap N) (I32.wrap xptr) (I32.wrap strideX) (I32.wrap offsetX)
                  (I32.wrap yptr) (I32.wrap strideY) (I32.wrap offsetY) (I32.wrap pptr) ;;
  ret yptr.

(** ** The routine class bundled in [index.mjs]

    The class serves callers that hold JavaScript arrays. It moves the
    arrays into the module's memory and back with packages that are not
    part of this repository: they are the variables of the section. *)

Section Routine.

(** A typed array, as the reference JavaScript passes around, and the
    heap that holds the contents of the arrays. *)
Variable array : Type.
Variable heap : Type.

(** What a method acts on: the heap and the memory of the module. *)
Definition world : Type := (heap * state)%type.

(** The fields the methods read from the objects of [arrays2ptrs]. *)
Record strided : Type := Strided {
  ptr : Z;
  stride : Z;
  offset : Z;
  copy : bool;
  BYTES_PER_ELEMENT : Z
}.

(** [@stdlib/strided-base-stride2offset] *)
Variable stride2offset : Z -> Z -> Z.

(** [@stdlib/wasm-base-strided2object], whose objects are opaque here *)
Variable descriptor : Type.
Variable strided2object : Z -> array -> Z -> Z -> descriptor.

(** [@stdlib/wasm-base-arrays2ptrs], called on the routine *)
Variable arrays2ptrs : list descriptor -> world -> result world (list strided).

(** [@stdlib/strided-base-read-dataview], on the view of the routine's
    memory: [readDataView N byteStride ptr x strideX offsetX] *)
Variable readDataView : Z -> Z -> Z -> array -> Z -> Z -> world -> result world unit.

(** A method of [Module] run on the memory of the routine. *)
Definition on_memory {A : Type} (c : M A) : world -> result world A :=
  fun w => match c (snd w) with
           | Ok a s => Ok a (fst w, s)
           | Err e s => Err e (fst w, s)
           end.

Definition Routine_ndarray (N : Z) (x : array) (strideX offsetX : Z)
    (y : array) (strideY offsetY : Z) (param : array) : world -> result world array :=
  ptrs <- arrays2ptrs [strided2object N x strideX offsetX;
                       strided2object N y strideY offsetY;
                       strided2object 5 param 1 0] ;;
  match ptrs with
  | p0 :: p1 :: p2 :: _ =>
      on_memory (Module_ndarray N (ptr p0) (stride p0) (offset p0)
                                  (ptr p1) (stride p1) (offset p1) (ptr p2)) ;;
      (if copy p0
       then readDataView N (stride p0 * BYTES_PER_ELEMENT p0) (ptr p0) x strideX offsetX
       else ret tt) ;;
      (if copy p1
       then readDataView N (stride p1 * BYTES_PER_ELEMENT p1) (ptr p1) y strideY offsetY
       else ret tt) ;;
      ret y
  | _ => throw Thrown
  end.

Definition Routine_main (N : Z) (x : array) (strideX : Z) (y : array) (strideY : Z)
    (param : array) : world -> result world array :=
  Routine_ndarray N x strideX (stride2offset N strideX)
                    y strideY (stride2offset N strideY) param.

End Routine.

(** ** Addresses

    [addr p k] is the byte address of element [k] of the vector of
    doubles at pointer [p], as the 32-bit machine computes it. *)

Definition addr (p k : Z) : Z := I32.unsigned (p + 8 * k).

(** Byte address of [param[k]]: the loads of [param] use the static
    offset [8k] of the instruction, which is added without wrap-around. *)
Definition param_addr (P k : Z) : Z := effective P (8 * k).


(** What a load at byte address [ea] finds in the cells [m], if the
    access is inside the memory and on a cell. *)
Definition peek (m : list float) (ea : Z) : option float :=
  if 8 * Z.of_nat (length m) <? ea + 8 then None
  else if negb (ea mod 8 =? 0) then None
  else m !! cell_of ea.

(** ** The shape of the kernel

    The six loops differ in the branch of [dflag] and in whether the
    common index is used. The definitions below name these choices; the
    lemmas of the second part show that [rotate] is made of them. *)

Inductive branch : Type := Neg | Zero | Pos.

(** The chain of comparisons on [dflag], after [dflag == -2.0]. *)
Definition branch_of (dflag : float) : branch :=
  if (dflag <? 0)%float then Neg
  else if (dflag =? 0)%float then Zero
  else Pos.

(** The test [!(strideX != strideY | strideX <= 0)]. *)
Definition same_walk (strideX strideY : Z) : bool :=
  negb (I32.ne strideX strideY || I32.le_s strideX 0).

(** The body of the loop taken for [same] and [br]. *)
Definition iteration (X Y : Z) (same : bool) (br : branch)
    (h11 h21 h12 h22 : float) (ix iy : Z) : M unit :=
  match same, br with
  | true, Neg => body_same_neg X Y h11 h21 h12 h22 ix
  | true, Zero => body_same_zero X Y h21 h12 ix
  | true, Pos => body_same_pos X Y h11 h22 ix
  | false, Neg => body_gen_neg X Y h11 h21 h12 h22 ix iy
  | false, Zero => body_gen_zero X Y h21 h12 ix iy
  | false, Pos => body_gen_pos X Y h11 h22 ix iy
  end.

(** The two values an iteration stores, with the operands in the order
    of the instructions. *)
Definition stored (br : branch) (h11 h21 h12 h22 w z : float) : float * float :=
  match br with
  | Neg => (w * h11 + h12 * z, w * h21 + h22 * z)%float
  | Zero => (z * h12 + w, z + w * h21)%float
  | Pos => (w * h11 + z, z * h22 - w)%float
  end.

(** The two loads of an iteration, in the order of the instructions:
    the loops for [dflag == 0] load from [Y] first. *)
Definition loads (br : branch) (ax ay : Z) (w z : float) : list event :=
  match br with
  | Zero => [Rd ay z; Rd ax w]
  | _ => [Rd ax w; Rd ay z]
  end.

(** The loads of [param] made before the loops. *)
Definition prologue (br : branch) (P : Z) (dflag h11 h21 h12 h22 : float) : list event :=
  Rd (param_addr P 0) dflag ::
  match br with
  | Neg => [Rd (param_addr P 4) h22; Rd (param_addr P 2) h21; Rd (param_addr P 3) h12; Rd (param_addr P 1) h11]
  | Zero => [Rd (param_addr P 2) h21; Rd (param_addr P 3) h12]
  | Pos => [Rd (param_addr P 4) h22; Rd (param_addr P 1) h11]
  end.

(** [n] trips of a loop from indices [ix], [iy]. *)
Fixpoint iters (n : nat) (body : Z -> Z -> M unit) (strideX strideY ix iy : Z) : M unit :=
  match n with
  | O => ret tt
  | S n' => body ix iy ;;
            iters n' body strideX strideY (I32.add strideX ix) (I32.add strideY iy)
  end.

(** The index held by a local after [n] additions of the stride. *)
Fixpoint walk (n : nat) (stride ix : Z) : Z :=
  match n with
  | O => ix
  | S n' => I32.add stride (walk n' stride ix)
  end.

(** Element indices of iteration [i], as the kernel forms them: in the
    branch of [same_walk] the [y] element is taken at the index of [x]. *)
Definition x_index (strideX offsetX i : Z) : Z := offsetX + i * strideX.

Definition y_index (strideX offsetX strideY offsetY i : Z) : Z :=
  if same_walk strideX strideY then offsetX + i * strideX
  else offsetY + i * strideY.

(** Byte addresses of the two elements of iteration [i]. *)
Definition x_addr (X strideX offsetX i : Z) : Z := addr X (x_index strideX offsetX i).

Definition y_addr (Y strideX offsetX strideY offsetY i : Z) : Z :=
  addr Y (y_index strideX offsetX strideY offsetY i).

(** The five doubles of [param] in the cells [m]. *)
Definition param_is (m : list float) (P : Z) (flag h11 h21 h12 h22 : float) : Prop :=
  peek m (param_addr P 0) = Some flag /\
  peek m (param_addr P 1) = Some h11 /\
  peek m (param_addr P 2) = Some h21 /\
  peek m (param_addr P 3) = Some h12 /\
  peek m (param_addr P 4) = Some h22.

(** The cells a result leaves, when the call returned. *)
Definition returned_cells {A : Type} (r : result state A) : option (list float) :=
  match r with
  | Ok _ s => Some (cells s)
  | Err _ _ => None
  end.

(** ** The rotation as the specification words it

    These definitions follow the text of the specification, not the
    instructions; the theorems compare the kernel with them. *)

Module Spec.

(** [flag == -1.0]: the full matrix [[h11,h12],[h21,h22]]. *)
Definition full (h11 h21 h12 h22 w z : float) : float * float :=
  (w * h11 + z * h12, w * h21 + z * h22)%float.

(** [flag == 0.0]: the matrix [[1,h12],[h21,1]]. *)
Definition unit_diagonal (h21 h12 w z : float) : float * float :=
  (w + z * h12, w * h21 + z)%float.

(** [flag == 1.0]: the matrix [[h11,1],[-1,h22]]. *)
Definition anti_diagonal (h11 h22 w z : float) : float * float :=
  (w * h11 + z, z * h22 - w)%float.

(** One pair of elements rotated through scratch copies: [w] and [z]
    are copied out of the buffer, both new values are computed from the
    copies, then both are stored. [None] when an element is outside the
    buffer. *)
Definition rotate_pair (F : float -> float -> float * float)
    (ax ay : Z) (m : list float) : option (list float) :=
  match peek m ax, peek m ay with
  | Some w, Some z =>
      Some (<[cell_of ay := snd (F w z)]> (<[cell_of ax := fst (F w z)]> m))
  | _, _ => None
  end.

(** The first [n] pairs, in order. *)
Fixpoint rotate_pairs (n : nat) (F : float -> float -> float * float)
    (xa ya : Z -> Z) (m : list float) : option (list float) :=
  match n with
  | O => Some m
  | S n' =>
      match rotate_pairs n' F xa ya m with
      | Some m' => rotate_pair F (xa (Z.of_nat n')) (ya (Z.of_nat n')) m'
      | None => None
      end
  end.

(** The first [n] pairs rotated from a scratch copy [orig] of the
    buffer, taken before the first store: every pair is read from the
    copy and written to the buffer. *)
Fixpoint rotate_from_copy (n : nat) (F : float -> float -> float * float)
    (xa ya : Z -> Z) (orig m : list float) : option (list float) :=
  match n with
  | O => Some m
  | S n' =>
      match rotate_from_copy n' F xa ya orig m with
      | Some m' =>
          match peek orig (xa (Z.of_nat n')), peek orig (ya (Z.of_nat n')) with
          | Some w, Some z =>
              Some (<[cell_of (ya (Z.of_nat n')) := snd (F w z)]>
                      (<[cell_of (xa (Z.of_nat n')) := fst (F w z)]> m'))
          | _, _ => None
          end
      | None => None
      end
  end.

(** No element of a pair is an element of an earlier pair: the walks
    may interleave in one buffer, and the two elements of one pair may
    even be the same, but no iteration meets what another one wrote. *)
Definition separate (n : Z) (xa ya : Z -> Z) : Prop :=
  forall i j, 0 <= i < j -> j < n ->
    xa j <> xa i /\ xa j <> ya i /\ ya j <> xa i /\ ya j <> ya i.

(** The formulas by the sign of the flag: the full matrix for a
    negative flag, the unit diagonal for a zero, the [flag == 1.0]
    formulas for everything else. *)
Definition by_sign (flag h11 h21 h12 h22 : float) : float -> float -> float * float :=
  if (flag <? 0)%float then full h11 h21 h12 h22
  else if (flag =? 0)%float then unit_diagonal h21 h12
  else anti_diagonal h11 h22.

(** Default offset of the convenience form. *)
Definition default_offset (N stride : Z) : Z :=
  if stride <? 0 then (1 - N) * stride else 0.

End Spec.

(** The state an iteration leaves when it found [w] at [ax] and [z] at
    [ay]: the store to [x] comes first, the store to [y] second. *)
Definition after_iteration (s : state) (br : branch) (h11 h21 h12 h22 : float)
    (ax ay : Z) (w z : float) : state :=
  let v := stored br h11 h21 h12 h22 w z in
  State (<[cell_of ay := snd v]> (<[cell_of ax := fst v]> (cells s)))
        (log s ++ loads br ax ay w z ++ [Wr ax (fst v); Wr ay (snd v)]).

(** ** Memories for the examples

    One page of 65536 bytes: the given doubles from byte 0 on, zeros
    after them. *)
Definition one_page (head : list float) : list float :=
  head ++ repeat 0%float (Z.to_nat 8192 - length head).

(** [x = [1,2,3,4,5]] at byte 0, [y = [1,1,1,1,1]] at byte 40 and
    [param = [flag,0,2,-3,0]] at byte 80. *)
Definition memory_with_flag (flag : float) : state :=
  State (one_page [1; 2; 3; 4; 5; 1; 1; 1; 1; 1; flag; 0; 2; -3; 0]%float) [].

Definition example_memory : state := memory_with_flag 0%float.

(** The state of a result, returned or not. *)
Definition final_state {A : Type} (r : result state A) : state :=
  match r with
  | Ok _ s => s
  | Err _ s => s
  end.

(** [example_memory] after the first two iterations of a call with
    strides 1 and offsets 0. *)
Definition example_after_two : state :=
  final_state (rotate 2 0 1 0 40 1 0 80 example_memory).

(** The value a call returned, if it returned. *)
Definition returned_value {S A : Type} (r : result S A) : option A :=
  match r with
  | Ok a _ => Some a
  | Err _ _ => None
  end.

(** The addresses stored to between [lo] and [hi], in order. *)
Definition stores_in (lo hi : Z) (l : list event) : list Z :=
  flat_map (fun ev => match ev with
                      | Wr a _ => if (lo <=? a) && (a <? hi) then [a] else []
                      | Rd _ _ => []
                      end) l.

(** The addresses loaded from between [lo] and [hi], in order. *)
Definition loads_in (lo hi : Z) (l : list event) : list Z :=
  flat_map (fun ev => match ev with
                      | Rd a _ => if (lo <=? a) && (a <? hi) then [a] else []
                      | Wr _ _ => []
                      end) l.

(** [x = [1,2,3,4,5]] at byte 0, [y = [10,20,30,40,50]] at byte 40 and
    [param = [1,1,1,1,1]] at byte 80. *)
Definition distinct_memory : state :=
  State (one_page [1; 2; 3; 4; 5; 10; 20; 30; 40; 50; 1; 1; 1; 1; 1]%float) [].

(** The entries of [param] a branch loads after the flag, in order. *)
Definition coefficients (br : branch) : list Z :=
  match br with
  | Neg => [4; 2; 3; 1]
  | Zero => [2; 3]
  | Pos => [4; 1]
  end.

(** The number of doubles the memory holds from [param] on: all a
    pointer tells of the length of [param]. *)
Definition param_elements (s : state) (P : Z) : Z := (mem_size s - I32.unsigned P) / 8.

(** One page with [x = [1]] at byte 0, [y = [1]] at byte 8, and the four
    doubles [0, 0, 2, -3] in the last 32 bytes. *)
Definition short_param_memory : state :=
  State ([1; 1]%float ++ repeat 0%float (Z.to_nat 8186) ++ [0; 0; 2; -3]%float) [].

(** One page whose last double is a flag [0.0]. *)
Definition flag_only_memory : state :=
  State ([1; 1]%float ++ repeat 0%float (Z.to_nat 8189) ++ [0]%float) [].

(** [distinct_memory] with the second and third doubles of [y]
    exchanged. *)
Definition exchanged_memory : state :=
  State (one_page [1; 2; 3; 4; 5; 10; 30; 20; 40; 50; 1; 1; 1; 1; 1]%float) [].

(** The result of a computation that was given enough fuel. *)
Definition fuel_sufficed {A : Type} (r : result state A) : Prop :=
  match r with
  | Err OutOfFuel _ => False
  | _ => True
  end.

(** ** Accesses by effective address

    A load or a store depends on its operands through the effective
    address only: these are [f64_load] and [f64_store] with the address
    formed. *)

Definition load_at (ea : Z) : M float := fun s =>
  if mem_size s <? ea + 8 then Err OutOfBounds s
  else if negb (ea mod 8 =? 0) then Err Unaligned s
  else match cells s !! cell_of ea with
       | Some v => Ok v (State (cells s) (log s ++ [Rd ea v]))
       | None => Err OutOfBounds s
       end.

Definition store_at (ea : Z) (v : float) : M unit := fun s =>
  if mem_size s <? ea + 8 then Err OutOfBounds s
  else if negb (ea mod 8 =? 0) then Err Unaligned s
  else Ok tt (State (<[cell_of ea := v]> (cells s)) (log s ++ [Wr ea v])).

(** A loop body, given the addresses of its two elements. *)
Definition access_pair (br : branch) (h11 h21 h12 h22 : float) (ax ay : Z) : M unit :=
  match br with
  | Neg =>
      w <- load_at ax ;;
      z <- load_at ay ;;
      store_at ax (w * h11 + h12 * z)%float ;;
      store_at ay (w * h21 + h22 * z)%float
  | Zero =>
      z <- load_at ay ;;
      w <- load_at ax ;;
      store_at ax (z * h12 + w)%float ;;
      store_at ay (z + w * h21)%float
  | Pos =>
      w <- load_at ax ;;
      z <- load_at ay ;;
      store_at ax (w * h11 + z)%float ;;
      store_at ay (z * h22 - w)%float
  end.

(** ** The footprint of a call

    What a log tells of the accesses when the doubles are left out. *)
Inductive access : Type :=
  | Load (addr : Z)
  | Store (addr : Z).

Definition access_of (ev : event) : access :=
  match ev with
  | Rd a _ => Load a
  | Wr a _ => Store a
  end.

Definition footprint (l : list event) : list access := map access_of l.

(** The accesses of one iteration, in the order of the instructions. *)
Definition iteration_footprint (br : branch) (ax ay : Z) : list access :=
  match br with
  | Zero => [Load ay; Load ax; Store ax; Store ay]
  | _ => [Load ax; Load ay; Store ax; Store ay]
  end.

(** The loads of [param] a call makes before its loop. *)
Definition prologue_footprint (br : branch) (P : Z) : list access :=
  Load (param_addr P 0) :: map (fun k => Load (param_addr P k)) (coefficients br).

(** The element of [y] a call starts from: in the branch of equal
    positive strides it is the one at [offsetX]. *)
Definition y_start (strideX offsetX strideY offsetY : Z) : Z :=
  if same_walk strideX strideY then offsetX else offsetY.

(** The offset [c_drotm] passes for a stride. *)
Definition main_offset (N stride : Z) : Z :=
  if I32.le_s stride 0 then I32.mul (I32.sub 1 N) stride else 0.

(** ** Pairs rotated from a copy, in any order

    [copy_pair] rotates the pair of index [i], read from [orig], into
    [m]; [copy_pairs] does so for a list of indices, in order. *)
Definition copy_pair (F : float -> float -> float * float) (xa ya : Z -> Z)
    (orig : list float) (i : Z) (m : list float) : option (list float) :=
  match peek orig (xa i), peek orig (ya i) with
  | Some w, Some z =>
      Some (<[cell_of (ya i) := snd (F w z)]> (<[cell_of (xa i) := fst (F w z)]> m))
  | _, _ => None
  end.

Fixpoint copy_pairs (F : float -> float -> float * float) (xa ya : Z -> Z)
    (orig : list float) (l : list Z) (m : list float) : option (list float) :=
  match l with
  | [] => Some m
  | i :: l' =>
      match copy_pair F xa ya orig i m with
      | Some m' => copy_pairs F xa ya orig l' m'
      | None => None
      end
  end.

(** A result that is a return or one of the two refusals of an access. *)
Definition stopped_at_access {A : Type} (r : result state A) : Prop :=
  match r with
  | Ok _ _ => True
  | Err OutOfBounds _ => True
  | Err Unaligned _ => True
  | Err _ _ => False
  end.

(** One page with [y = [4,5,6]] at byte 0, [param = [1,1,1,1,1]] at
    byte 80 and [x = [1,2,3]] in its last three doubles, from byte
    65512 on. *)
Definition edge_memory : state :=
  State ([4; 5; 6; 0; 0; 0; 0; 0; 0; 0; 1; 1; 1; 1; 1]%float
         ++ repeat 0%float (Z.to_nat 8174) ++ [1; 2; 3]%float) [].
(** ** Facts on 32-bit arithmetic *)

Module I32Facts.
Import I32.

Lemma modulus_eq : modulus = 4294967296.
Proof. reflexivity. Qed.

Lemma half_eq : half = 2147483648.
Proof. reflexivity. Qed.

Lemma wrap_range (z : Z) : in_range (wrap z).
Proof.
  unfold in_range, wrap. rewrite modulus_eq, half_eq.
  pose proof (Z.mod_pos_bound (z + 2147483648) 4294967296). lia.
Qed.

Lemma wrap_id (z : Z) : in_range z -> wrap z = z.
Proof.
  unfold in_range, wrap. rewrite modulus_eq, half_eq. intros H.
  rewrite Z.mod_small by lia. lia.
Qed.

Lemma unsigned_wrap (z : Z) : unsigned (wrap z) = unsigned z.
Proof.
  unfold unsigned, wrap.
  rewrite Zminus_mod_idemp_l. f_equal. lia.
Qed.

Lemma unsigned_add_l (a b : Z) : unsigned (unsigned a + b) = unsigned (a + b).
Proof. unfold unsigned. apply Zplus_mod_idemp_l. Qed.

Lemma unsigned_add_r (a b : Z) : unsigned (a + unsigned b) = unsigned (a + b).
Proof. unfold unsigned. apply Zplus_mod_idemp_r. Qed.

Lemma unsigned_mul_l (a b : Z) : unsigned (unsigned a * b) = unsigned (a * b).
Proof. unfold unsigned. apply Zmult_mod_idemp_l. Qed.

Lemma unsigned_mul_r (a b : Z) : unsigned (a * unsigned b) = unsigned (a * b).
Proof. unfold unsigned. apply Zmult_mod_idemp_r. Qed.

(** Two integers with the same 32 bits have the same signed value. *)
Lemma wrap_unsigned (a b : Z) : unsigned a = unsigned b -> wrap a = wrap b.
Proof.
  unfold unsigned, wrap. intros H. f_equal.
  rewrite <- (Zplus_mod_idemp_l a), <- (Zplus_mod_idemp_l b). now rewrite H.
Qed.

Lemma wrap_wrap (z : Z) : wrap (wrap z) = wrap z.
Proof. apply wrap_id, wrap_range. Qed.

Lemma wrap_add_l (a b : Z) : wrap (wrap a + b) = wrap (a + b).
Proof.
  apply wrap_unsigned.
  rewrite <- unsigned_add_l, unsigned_wrap. apply unsigned_add_l.
Qed.

Lemma wrap_add_r (a b : Z) : wrap (a + wrap b) = wrap (a + b).
Proof. rewrite (Z.add_comm a), wrap_add_l. f_equal. lia. Qed.

Lemma wrap_sub_r (a b : Z) : wrap (a - wrap b) = wrap (a - b).
Proof.
  apply wrap_unsigned. unfold unsigned.
  rewrite <- Zminus_mod_idemp_r.
  change (wrap b mod modulus) with (unsigned (wrap b)).
  rewrite unsigned_wrap. apply Zminus_mod_idemp_r.
Qed.

Lemma wrap_mul_l (a b : Z) : wrap (wrap a * b) = wrap (a * b).
Proof.
  apply wrap_unsigned.
  rewrite <- unsigned_mul_l, unsigned_wrap. apply unsigned_mul_l.
Qed.

Lemma wrap_mul_r (a b : Z) : wrap (a * wrap b) = wrap (a * b).
Proof. rewrite (Z.mul_comm a), wrap_mul_l. f_equal. lia. Qed.

End I32Facts.

(** ** Facts on binary64 arithmetic *)

Module F64Facts.

Lemma mul_comm (a b : float) : (a * b)%float = (b * a)%float.
Proof.
  apply Prim2SF_inj. rewrite !mul_spec. unfold SF64mul, SFmul.
  destruct (Prim2SF a) as [sa|sa| |sa ma ea], (Prim2SF b) as [sb|sb| |sb mb eb];
    try reflexivity; rewrite ?(xorb_comm sa sb); try reflexivity.
  now rewrite (Pos.mul_comm ma mb), (Z.add_comm ea eb).
Qed.

Lemma add_comm (a b : float) : (a + b)%float = (b + a)%float.
Proof.
  apply Prim2SF_inj. rewrite !add_spec. unfold SF64add, SFadd.
  destruct (Prim2SF a) as [sa|sa| |sa ma ea], (Prim2SF b) as [sb|sb| |sb mb eb];
    try reflexivity; try (destruct sa, sb; reflexivity).
  now rewrite (Z.min_comm ea eb), Z.add_comm.
Qed.

(** [==] with a finite number other than zero is equality. *)
Lemma SFeqb_finite (x : spec_float) (s : bool) (m : positive) (e : Z) :
  SFeqb x (S754_finite s m e) = true -> x = S754_finite s m e.
Proof.
  unfold SFeqb, SFcompare.
  destruct x as [sx|sx| |sx mx ex]; try discriminate;
    try (destruct sx; discriminate); try (destruct s; discriminate).
  destruct sx, s; try discriminate;
    destruct (Z.compare_spec ex e) as [->| |]; try discriminate;
    change (Pos.compare_cont Eq mx m) with (Pos.compare mx m);
    destruct (Pos.compare_spec mx m) as [->| |]; try discriminate; reflexivity.
Qed.

Lemma eqb_finite (f c : float) (s : bool) (m : positive) (e : Z) :
  Prim2SF c = S754_finite s m e -> (f =? c)%float = true -> f = c.
Proof.
  intros Hc H. rewrite FloatAxioms.eqb_spec, Hc in H. apply SFeqb_finite in H.
  apply Prim2SF_inj. congruence.
Qed.

Lemma eqb_minus_one (f : float) : (f =? -1)%float = true -> f = (-1)%float.
Proof. now apply (eqb_finite f (-1)%float true 4503599627370496%positive (-52)). Qed.

Lemma eqb_one (f : float) : (f =? 1)%float = true -> f = 1%float.
Proof. now apply (eqb_finite f 1%float false 4503599627370496%positive (-52)). Qed.

Lemma eqb_minus_two (f : float) : (f =? -2)%float = true -> f = (-2)%float.
Proof. now apply (eqb_finite f (-2)%float true 4503599627370496%positive (-51)). Qed.

(** [== 0.0] holds of the two zeros only. *)
Lemma eqb_zero (f : float) : (f =? 0)%float = true -> f = 0%float \/ f = (-0)%float.
Proof.
  intros H. rewrite FloatAxioms.eqb_spec in H.
  change (Prim2SF 0) with (S754_zero false) in H.
  rewrite <- (SF2Prim_Prim2SF f).
  destruct (Prim2SF f) as [sx|sx| |sx mx ex]; try discriminate;
    try (destruct sx; discriminate).
  destruct sx; [right | left]; reflexivity.
Qed.

End F64Facts.

(** ** Addresses *)

Lemma effective_element (p ix : Z) :
  effective (I32.add p (I32.shl ix 3)) 0 = addr p ix.
Proof.
  unfold effective, addr, I32.add, I32.shl.
  rewrite Z.add_0_r, I32Facts.unsigned_wrap.
  rewrite <- I32Facts.unsigned_add_r, I32Facts.unsigned_wrap, I32Facts.unsigned_add_r.
  f_equal. change (2 ^ 3) with 8. lia.
Qed.

Lemma effective_wrap (p k : Z) :
  effective (I32.wrap p) k = effective p k.
Proof. unfold effective. now rewrite I32Facts.unsigned_wrap. Qed.

Lemma addr_nonneg (p k : Z) : 0 <= addr p k.
Proof.
  unfold addr, I32.unsigned. rewrite I32Facts.modulus_eq.
  pose proof (Z.mod_pos_bound (p + 8 * k) 4294967296). lia.
Qed.

Lemma addr_wrap_index (p k : Z) : addr p (I32.wrap k) = addr p k.
Proof.
  unfold addr.
  rewrite <- I32Facts.unsigned_add_r, <- I32Facts.unsigned_mul_r.
  rewrite I32Facts.unsigned_wrap.
  now rewrite I32Facts.unsigned_mul_r, I32Facts.unsigned_add_r.
Qed.

Lemma addr_wrap_pointer (p k : Z) : addr (I32.wrap p) k = addr p k.
Proof.
  unfold addr.
  rewrite <- I32Facts.unsigned_add_l, I32Facts.unsigned_wrap.
  apply I32Facts.unsigned_add_l.
Qed.

Lemma addr_shift (p a b c : Z) : addr p a = addr p b -> addr p (c + a) = addr p (c + b).
Proof.
  unfold addr. intros H.
  replace (p + 8 * (c + a)) with (8 * c + (p + 8 * a)) by lia.
  replace (p + 8 * (c + b)) with (8 * c + (p + 8 * b)) by lia.
  rewrite <- I32Facts.unsigned_add_r, H. apply I32Facts.unsigned_add_r.
Qed.

Lemma walk_shift (n : nat) (stride ix : Z) :
  walk n stride (I32.add stride ix) = I32.add stride (walk n stride ix).
Proof. induction n as [|n IH]; simpl; [reflexivity | now rewrite IH]. Qed.

(** The local holds, modulo 2^32, the index the specification names. *)
Lemma addr_walk (p : Z) (n : nat) (stride ix : Z) :
  addr p (walk n stride ix) = addr p (ix + Z.of_nat n * stride).
Proof.
  induction n as [|n IH]; simpl walk.
  - f_equal. lia.
  - unfold I32.add. rewrite addr_wrap_index.
    rewrite (addr_shift _ _ _ stride IH). f_equal. lia.
Qed.

(** ** Loads and stores *)

Lemma peek_lookup (m : list float) (ea : Z) (v : float) :
  peek m ea = Some v -> m !! cell_of ea = Some v.
Proof.
  unfold peek. destruct (_ <? _); [discriminate|].
  destruct (negb _); [discriminate | auto].
Qed.

Lemma peek_insert_length (m : list float) (c : nat) (v : float) (ea : Z) :
  0 <= ea -> is_Some (peek m ea) -> is_Some (peek (<[c := v]> m) ea).
Proof.
  unfold peek. rewrite length_insert. intros Hea.
  destruct (8 * Z.of_nat (length m) <? ea + 8) eqn:Hb; [intros [? ?]; discriminate|].
  destruct (negb (ea mod 8 =? 0)); [intros [? ?]; discriminate|].
  intros _. apply lookup_lt_is_Some. rewrite length_insert.
  apply Z.ltb_ge in Hb. unfold cell_of.
  assert (ea / 8 < Z.of_nat (length m)) by (apply Z.div_lt_upper_bound; lia).
  assert (0 <= ea / 8) by (apply Z.div_pos; lia). lia.
Qed.

Lemma f64_load_ok (b k : Z) (s : state) (v : float) :
  peek (cells s) (effective b k) = Some v ->
  f64_load b k s = Ok v (State (cells s) (log s ++ [Rd (effective b k) v])).
Proof.
  unfold f64_load, peek, mem_size. cbv zeta.
  destruct (_ <? _); [discriminate|].
  destruct (negb _); [discriminate|]. now intros ->.
Qed.

Lemma f64_load_err (b k : Z) (s : state) :
  peek (cells s) (effective b k) = None ->
  exists e, f64_load b k s = Err e s.
Proof.
  unfold f64_load, peek, mem_size. cbv zeta.
  destruct (_ <? _); [eauto|].
  destruct (negb _); [eauto|]. intros ->. eauto.
Qed.

Lemma f64_store_ok (b k : Z) (v : float) (s : state) :
  is_Some (peek (cells s) (effective b k)) ->
  f64_store b k v s =
  Ok tt (State (<[cell_of (effective b k) := v]> (cells s))
               (log s ++ [Wr (effective b k) v])).
Proof.
  unfold f64_store, peek, mem_size. cbv zeta.
  destruct (_ <? _); [intros [? ?]; discriminate|].
  destruct (negb _); [intros [? ?]; discriminate|]. reflexivity.
Qed.

Lemma f64_store_err (b k : Z) (v : float) (s : state) :
  0 <= effective b k ->
  peek (cells s) (effective b k) = None ->
  exists e, f64_store b k v s = Err e s.
Proof.
  unfold f64_store, peek, mem_size. cbv zeta. intros Hea.
  destruct (_ <? _) eqn:Hb; [eauto|].
  destruct (negb _); [eauto|]. intros Hn. exfalso.
  apply lookup_ge_None in Hn. apply Z.ltb_ge in Hb. unfold cell_of in Hn.
  assert (effective b k / 8 < Z.of_nat (length (cells s)))
    by (apply Z.div_lt_upper_bound; lia).
  assert (0 <= effective b k / 8) by (apply Z.div_pos; lia). lia.
Qed.

Lemma load_element (p ix : Z) (m : list float) (l : list event) (v : float) :
  peek m (addr p ix) = Some v ->
  f64_load (I32.add p (I32.shl ix 3)) 0 (State m l)
  = Ok v (State m (l ++ [Rd (addr p ix) v])).
Proof.
  intros H. rewrite <- (effective_element p ix) in *.
  now apply (f64_load_ok _ _ (State m l)).
Qed.

Lemma load_element_err (p ix : Z) (s : state) :
  peek (cells s) (addr p ix) = None ->
  exists e, f64_load (I32.add p (I32.shl ix 3)) 0 s = Err e s.
Proof.
  intros H. rewrite <- (effective_element p ix) in *. now apply f64_load_err.
Qed.

Lemma store_element (p ix : Z) (v : float) (m : list float) (l : list event) :
  is_Some (peek m (addr p ix)) ->
  f64_store (I32.add p (I32.shl ix 3)) 0 v (State m l)
  = Ok tt (State (<[cell_of (addr p ix) := v]> m) (l ++ [Wr (addr p ix) v])).
Proof.
  intros H. rewrite <- (effective_element p ix) in *.
  now apply (f64_store_ok _ _ _ (State m l)).
Qed.

Lemma store_element_err (p ix : Z) (v : float) (s : state) :
  peek (cells s) (addr p ix) = None ->
  exists e, f64_store (I32.add p (I32.shl ix 3)) 0 v s = Err e s.
Proof.
  intros H. pose proof (addr_nonneg p ix) as Hn.
  rewrite <- (effective_element p ix) in *. now apply f64_store_err.
Qed.

(** ** One iteration *)

Ltac run_iteration Hw Hz :=
  unfold bind;
  repeat first
    [ rewrite (load_element _ _ _ _ _ Hw)
    | rewrite (load_element _ _ _ _ _ Hz)
    | rewrite store_element
        by (repeat apply peek_insert_length; eauto using addr_nonneg) ];
  unfold after_iteration; simpl; rewrite <- ?app_assoc; reflexivity.

Lemma iteration_ok (X Y : Z) (same : bool) (br : branch)
    (h11 h21 h12 h22 : float) (ix iy : Z) (s : state) (w z : float) :
  peek (cells s) (addr X ix) = Some w ->
  peek (cells s) (addr Y (if same then ix else iy)) = Some z ->
  iteration X Y same br h11 h21 h12 h22 ix iy s
  = Ok tt (after_iteration s br h11 h21 h12 h22
             (addr X ix) (addr Y (if same then ix else iy)) w z).
Proof.
  intros Hw Hz. destruct s as [m l]. simpl cells in Hw, Hz.
  destruct same, br; unfold iteration, body_same_neg, body_same_zero, body_same_pos,
    body_gen_neg, body_gen_zero, body_gen_pos; cbv zeta; run_iteration Hw Hz.
Qed.

(** An iteration that cannot load its two elements stops before it
    stores anything. *)
Lemma iteration_err (X Y : Z) (same : bool) (br : branch)
    (h11 h21 h12 h22 : float) (ix iy : Z) (s : state) :
  peek (cells s) (addr X ix) = None \/
  peek (cells s) (addr Y (if same then ix else iy)) = None ->
  exists e s', iteration X Y same br h11 h21 h12 h22 ix iy s = Err e s'
               /\ cells s' = cells s.
Proof.
  intros H. destruct s as [m l]. simpl cells in H.
  destruct (peek m (addr X ix)) as [w|] eqn:Hw;
    destruct (peek m (addr Y (if same then ix else iy))) as [z|] eqn:Hz;
    [destruct H; discriminate| | |];
    destruct same, br;
    unfold iteration, body_same_neg, body_same_zero, body_same_pos,
      body_gen_neg, body_gen_zero, body_gen_pos; cbv zeta; unfold bind;
    repeat first
      [ rewrite (load_element _ _ _ _ _ Hw)
      | rewrite (load_element _ _ _ _ _ Hz) ];
    match goal with
    | |- context [f64_load (I32.add ?p (I32.shl ?i 3)) 0 ?st] =>
        destruct (load_element_err p i st) as [e He];
        [assumption | rewrite He; eauto]
    end.
Qed.

(** ** The loops

    With enough fuel a loop that starts at [i <= N] makes [N - i] trips
    and leaves: it never runs out of fuel. *)

Lemma loop_gen_iters (body : Z -> Z -> M unit) (N strideX strideY : Z) (fuel : nat) :
  N < I32.half ->
  forall (i ix iy : Z) (s : state),
    0 <= i <= N -> (Z.to_nat (N - i) < fuel)%nat ->
    loop_gen fuel body N strideX strideY i ix iy s
    = iters (Z.to_nat (N - i)) body strideX strideY ix iy s.
Proof.
  intros HN. induction fuel as [|fuel IH]; intros i ix iy s Hi Hf; [lia|].
  simpl loop_gen. unfold I32.eq.
  destruct (N =? i) eqn:E.
  - apply Z.eqb_eq in E. subst i. now rewrite Z.sub_diag.
  - apply Z.eqb_neq in E.
    replace (Z.to_nat (N - i)) with (S (Z.to_nat (N - (i + 1)))) by lia.
    simpl iters. unfold bind. destruct (body ix iy s) as [[] s'|e s']; [|reflexivity].
    unfold I32.add at 1. rewrite I32Facts.wrap_id
      by (unfold I32.in_range; rewrite I32Facts.half_eq in *; lia).
    apply IH; lia.
Qed.

Lemma loop_same_iters (body : Z -> M unit) (N strideX strideY : Z) (fuel : nat) :
  N < I32.half ->
  forall (i ix iy : Z) (s : state),
    0 <= i <= N -> (Z.to_nat (N - i) < fuel)%nat ->
    loop_same fuel body N strideX i ix s
    = iters (Z.to_nat (N - i)) (fun ix _ => body ix) strideX strideY ix iy s.
Proof.
  intros HN. induction fuel as [|fuel IH]; intros i ix iy s Hi Hf; [lia|].
  simpl loop_same. unfold I32.eq.
  destruct (N =? i) eqn:E.
  - apply Z.eqb_eq in E. subst i. now rewrite Z.sub_diag.
  - apply Z.eqb_neq in E.
    replace (Z.to_nat (N - i)) with (S (Z.to_nat (N - (i + 1)))) by lia.
    simpl iters. unfold bind. destruct (body ix s) as [[] s'|e s']; [|reflexivity].
    unfold I32.add at 1. rewrite I32Facts.wrap_id
      by (unfold I32.in_range; rewrite I32Facts.half_eq in *; lia).
    apply IH; lia.
Qed.

Lemma iters_S (body : Z -> Z -> M unit) (strideX strideY : Z) (n : nat)
    (ix iy : Z) (s : state) :
  iters (S n) body strideX strideY ix iy s
  = match body ix iy s with
    | Ok _ s' => iters n body strideX strideY (I32.add strideX ix) (I32.add strideY iy) s'
    | Err e s' => Err e s'
    end.
Proof. reflexivity. Qed.

(** The last trip of [S n] trips runs at the indices reached by [n]
    additions of the strides. *)
Lemma iters_snoc (body : Z -> Z -> M unit) (strideX strideY : Z) (n : nat) :
  forall (ix iy : Z) (s : state),
    iters (S n) body strideX strideY ix iy s
    = match iters n body strideX strideY ix iy s with
      | Ok _ s' => body (walk n strideX ix) (walk n strideY iy) s'
      | Err e s' => Err e s'
      end.
Proof.
  induction n as [|n IH]; intros ix iy s.
  - rewrite iters_S. simpl. unfold ret. destruct (body ix iy s) as [[] ?|]; reflexivity.
  - rewrite iters_S. rewrite (iters_S body strideX strideY n ix iy s).
    destruct (body ix iy s) as [[] s'|e s']; [|reflexivity].
    rewrite IH. simpl walk. now rewrite !walk_shift.
Qed.

(** ** The kernel as a prologue and a number of iterations *)

Lemma load_param (P k : Z) (m : list float) (l : list event) (v : float) :
  peek m (param_addr P k) = Some v ->
  f64_load P (8 * k) (State m l) = Ok v (State m (l ++ [Rd (param_addr P k) v])).
Proof. intros H. now apply (f64_load_ok _ _ (State m l)). Qed.

Ltac load_params :=
  repeat match goal with
  | H : peek ?m (param_addr ?P ?k) = Some ?v
    |- context [f64_load ?P ?o (State ?m ?l)] =>
      let E := fresh "E" in
      let o := eval cbv in (8 * k) in
      pose proof (load_param P k m l v H : f64_load P o (State m l) = _) as E;
      rewrite E; clear E
  end.

Lemma rotate_run (N X strideX offsetX Y strideY offsetY P : Z) (s0 : state)
    (flag h11 h21 h12 h22 : float) :
  0 <= N < I32.half ->
  param_is (cells s0) P flag h11 h21 h12 h22 ->
  (flag =? -2)%float = false ->
  rotate N X strideX offsetX Y strideY offsetY P s0
  = iters (Z.to_nat N)
      (iteration X Y (same_walk strideX strideY) (branch_of flag) h11 h21 h12 h22)
      strideX strideY offsetX offsetY
      (State (cells s0) (log s0 ++ prologue (branch_of flag) P flag h11 h21 h12 h22)).
Proof.
  intros HN (H0 & H1 & H2 & H3 & H4) Hf. destruct s0 as [m l]. simpl cells in *.
  simpl log. unfold rotate, bind.
  load_params. rewrite Hf.
  change (negb (I32.ne strideX strideY || I32.le_s strideX 0))
    with (same_walk strideX strideY).
  unfold branch_of.
  destruct (same_walk strideX strideY);
    destruct (flag <? 0)%float; [| destruct (flag =? 0)%float | | destruct (flag =? 0)%float];
    load_params; unfold fuel_for;
    first
      [ rewrite (loop_same_iters _ N strideX strideY (S (Z.to_nat N)) (proj2 HN)
                   0 offsetX offsetY) by lia
      | rewrite (loop_gen_iters _ N strideX strideY (S (Z.to_nat N)) (proj2 HN)
                   0 offsetX offsetY) by lia ];
    rewrite Z.sub_0_r; simpl prologue; rewrite <- ?app_assoc; reflexivity.
Qed.

(** ** The iterations of a call *)

Lemma iteration_x_addr (X strideX offsetX : Z) (n : nat) :
  addr X (walk n strideX offsetX) = x_addr X strideX offsetX (Z.of_nat n).
Proof. apply addr_walk. Qed.

Lemma iteration_y_addr (Y strideX offsetX strideY offsetY : Z) (n : nat) :
  addr Y (if same_walk strideX strideY
          then walk n strideX offsetX else walk n strideY offsetY)
  = y_addr Y strideX offsetX strideY offsetY (Z.of_nat n).
Proof.
  unfold y_addr, y_index. destruct (same_walk strideX strideY); apply addr_walk.
Qed.

(** After the first [i] iterations, iteration [i] is what one more trip
    of the loop does. *)
Lemma rotate_succ (X strideX offsetX Y strideY offsetY P : Z) (s0 : state)
    (flag h11 h21 h12 h22 : float) (i : Z) :
  0 <= i -> i + 1 < I32.half ->
  param_is (cells s0) P flag h11 h21 h12 h22 ->
  (flag =? -2)%float = false ->
  rotate (i + 1) X strideX offsetX Y strideY offsetY P s0
  = match rotate i X strideX offsetX Y strideY offsetY P s0 with
    | Ok _ s_i =>
        iteration X Y (same_walk strideX strideY) (branch_of flag) h11 h21 h12 h22
          (walk (Z.to_nat i) strideX offsetX) (walk (Z.to_nat i) strideY offsetY) s_i
    | Err e s' => Err e s'
    end.
Proof.
  intros Hi Hi' Hp Hf.
  assert (H1 : 0 <= i + 1 < I32.half) by lia.
  assert (H2 : 0 <= i < I32.half) by lia.
  rewrite (rotate_run _ _ _ _ _ _ _ _ _ _ _ _ _ _ H1 Hp Hf).
  rewrite (rotate_run _ _ _ _ _ _ _ _ _ _ _ _ _ _ H2 Hp Hf).
  replace (Z.to_nat (i + 1)) with (S (Z.to_nat i)) by lia.
  apply iters_snoc.
Qed.

Lemma rotate_step (X strideX offsetX Y strideY offsetY P : Z) (s0 : state)
    (flag h11 h21 h12 h22 : float) (i : Z) (s_i : state) (w z : float) :
  0 <= i -> i + 1 < I32.half ->
  param_is (cells s0) P flag h11 h21 h12 h22 ->
  (flag =? -2)%float = false ->
  rotate i X strideX offsetX Y strideY offsetY P s0 = Ok tt s_i ->
  peek (cells s_i) (x_addr X strideX offsetX i) = Some w ->
  peek (cells s_i) (y_addr Y strideX offsetX strideY offsetY i) = Some z ->
  rotate (i + 1) X strideX offsetX Y strideY offsetY P s0
  = Ok tt (after_iteration s_i (branch_of flag) h11 h21 h12 h22
             (x_addr X strideX offsetX i)
             (y_addr Y strideX offsetX strideY offsetY i) w z).
Proof.
  intros Hi Hi' Hp Hf Hrun Hw Hz.
  rewrite (rotate_succ _ _ _ _ _ _ _ _ _ _ _ _ _ _ Hi Hi' Hp Hf), Hrun.
  rewrite <- (Z2Nat.id i Hi) in Hw, Hz.
  rewrite <- iteration_x_addr in Hw. rewrite <- iteration_y_addr in Hz.
  rewrite <- (Z2Nat.id i Hi) at 3 4.
  rewrite <- iteration_x_addr, <- iteration_y_addr.
  destruct (same_walk strideX strideY) eqn:E.
  - now rewrite (iteration_ok X Y true _ _ _ _ _ _ _ _ _ _ Hw Hz).
  - now rewrite (iteration_ok X Y false _ _ _ _ _ _ _ _ _ _ Hw Hz).
Qed.

(** ** The kernel against the rotation through scratch copies *)

Lemma iteration_refines (X Y : Z) (same : bool) (br : branch)
    (h11 h21 h12 h22 : float) (ix iy : Z) (s : state) :
  returned_cells (iteration X Y same br h11 h21 h12 h22 ix iy s)
  = Spec.rotate_pair (stored br h11 h21 h12 h22)
      (addr X ix) (addr Y (if same then ix else iy)) (cells s).
Proof.
  unfold Spec.rotate_pair.
  destruct (peek (cells s) (addr X ix)) as [w|] eqn:Hw.
  - destruct (peek (cells s) (addr Y (if same then ix else iy))) as [z|] eqn:Hz.
    + now rewrite (iteration_ok _ _ _ _ _ _ _ _ _ _ _ _ _ Hw Hz).
    + destruct (iteration_err X Y same br h11 h21 h12 h22 ix iy s) as (e & s' & -> & _);
        auto.
  - destruct (iteration_err X Y same br h11 h21 h12 h22 ix iy s) as (e & s' & -> & _);
      auto.
Qed.

Lemma iters_refines (X Y strideX offsetX strideY offsetY : Z) (br : branch)
    (h11 h21 h12 h22 : float) (n : nat) :
  forall s : state,
    returned_cells
      (iters n (iteration X Y (same_walk strideX strideY) br h11 h21 h12 h22)
         strideX strideY offsetX offsetY s)
    = Spec.rotate_pairs n (stored br h11 h21 h12 h22)
        (x_addr X strideX offsetX) (y_addr Y strideX offsetX strideY offsetY) (cells s).
Proof.
  induction n as [|n IH]; intros s; [reflexivity|].
  rewrite iters_snoc. simpl Spec.rotate_pairs. rewrite <- IH.
  destruct (iters n _ strideX strideY offsetX offsetY s) as [[] s'|e s']; [|reflexivity].
  simpl returned_cells at 2.
  rewrite iteration_refines, iteration_x_addr.
  now rewrite (iteration_y_addr Y strideX offsetX strideY offsetY n).
Qed.

Lemma rotate_refines (N X strideX offsetX Y strideY offsetY P : Z) (s0 : state)
    (flag h11 h21 h12 h22 : float) :
  0 <= N < I32.half ->
  param_is (cells s0) P flag h11 h21 h12 h22 ->
  (flag =? -2)%float = false ->
  returned_cells (rotate N X strideX offsetX Y strideY offsetY P s0)
  = Spec.rotate_pairs (Z.to_nat N) (stored (branch_of flag) h11 h21 h12 h22)
      (x_addr X strideX offsetX) (y_addr Y strideX offsetX strideY offsetY) (cells s0).
Proof.
  intros HN Hp Hf. rewrite (rotate_run _ _ _ _ _ _ _ _ _ _ _ _ _ _ HN Hp Hf).
  now rewrite iters_refines.
Qed.

(** ** The stored values are the formulas of the specification *)

Lemma stored_neg (h11 h21 h12 h22 w z : float) :
  stored Neg h11 h21 h12 h22 w z = Spec.full h11 h21 h12 h22 w z.
Proof.
  unfold stored, Spec.full.
  now rewrite (F64Facts.mul_comm h12 z), (F64Facts.mul_comm h22 z).
Qed.

Lemma stored_zero (h11 h21 h12 h22 w z : float) :
  stored Zero h11 h21 h12 h22 w z = Spec.unit_diagonal h21 h12 w z.
Proof.
  unfold stored, Spec.unit_diagonal.
  now rewrite (F64Facts.add_comm (z * h12) w), (F64Facts.add_comm z (w * h21)).
Qed.

Lemma stored_pos (h11 h21 h12 h22 w z : float) :
  stored Pos h11 h21 h12 h22 w z = Spec.anti_diagonal h11 h22 w z.
Proof. reflexivity. Qed.

Lemma stored_by_sign (flag h11 h21 h12 h22 w z : float) :
  stored (branch_of flag) h11 h21 h12 h22 w z = Spec.by_sign flag h11 h21 h12 h22 w z.
Proof.
  unfold branch_of, Spec.by_sign.
  destruct (flag <? 0)%float; [apply stored_neg|].
  destruct (flag =? 0)%float; [apply stored_zero | apply stored_pos].
Qed.

Lemma rotate_pairs_ext (F G : float -> float -> float * float) (xa ya : Z -> Z) (n : nat) :
  (forall w z, F w z = G w z) ->
  forall m, Spec.rotate_pairs n F xa ya m = Spec.rotate_pairs n G xa ya m.
Proof.
  intros E. induction n as [|n IH]; intros m; [reflexivity|].
  simpl. rewrite IH. destruct (Spec.rotate_pairs n G xa ya m) as [m'|]; [|reflexivity].
  unfold Spec.rotate_pair.
  destruct (peek m' (xa (Z.of_nat n))), (peek m' (ya (Z.of_nat n))); try reflexivity.
  now rewrite E.
Qed.

(** Whether an address can be loaded depends on the size of the memory
    only, and no store changes the size. *)
Lemma peek_same_length (m m' : list float) (ea : Z) :
  length m' = length m -> 0 <= ea ->
  is_Some (peek m ea) -> is_Some (peek m' ea).
Proof.
  unfold peek. intros Hl Hea. rewrite Hl.
  destruct (8 * Z.of_nat (length m) <? ea + 8) eqn:Hb; [intros [? ?]; discriminate|].
  destruct (negb (ea mod 8 =? 0)); [intros [? ?]; discriminate|].
  intros _. apply lookup_lt_is_Some.
  apply Z.ltb_ge in Hb. unfold cell_of in *.
  assert (ea / 8 < Z.of_nat (length m)) by (apply Z.div_lt_upper_bound; lia).
  assert (0 <= ea / 8) by (apply Z.div_pos; lia). lia.
Qed.

Lemma rotate_pair_length (F : float -> float -> float * float) (ax ay : Z)
    (m m' : list float) :
  Spec.rotate_pair F ax ay m = Some m' -> length m' = length m.
Proof.
  unfold Spec.rotate_pair. destruct (peek m ax), (peek m ay); try discriminate.
  intros [= <-]. now rewrite !length_insert.
Qed.

Lemma rotate_pairs_length (F : float -> float -> float * float) (xa ya : Z -> Z)
    (n : nat) (m m' : list float) :
  Spec.rotate_pairs n F xa ya m = Some m' -> length m' = length m.
Proof.
  revert m'. induction n as [|n IH]; intros m'; simpl.
  - now intros [= <-].
  - destruct (Spec.rotate_pairs n F xa ya m) as [m1|]; [|discriminate].
    intros H. apply rotate_pair_length in H. rewrite H. now apply IH.
Qed.

(** When every element of the two walks can be loaded, every pair is
    rotated. *)
Lemma rotate_pairs_total (F : float -> float -> float * float) (xa ya : Z -> Z)
    (n : nat) (m : list float) :
  (forall i, 0 <= xa i /\ 0 <= ya i) ->
  (forall i, 0 <= i < Z.of_nat n ->
             is_Some (peek m (xa i)) /\ is_Some (peek m (ya i))) ->
  is_Some (Spec.rotate_pairs n F xa ya m).
Proof.
  intros Hnn. induction n as [|n IH]; intros H; simpl; [eauto|].
  destruct IH as [m1 Hm1]; [intros i Hi; apply H; lia|].
  rewrite Hm1. pose proof (rotate_pairs_length _ _ _ _ _ _ Hm1) as Hl.
  destruct (H (Z.of_nat n)) as [Hx Hy]; [lia|].
  apply (peek_same_length m m1) in Hx; [|assumption|apply Hnn].
  apply (peek_same_length m m1) in Hy; [|assumption|apply Hnn].
  destruct Hx as [w Hw], Hy as [z Hz]. unfold Spec.rotate_pair. rewrite Hw, Hz. eauto.
Qed.

Lemma returned_cells_Some {A : Type} (r : result state A) (m : list float) :
  returned_cells r = Some m -> exists a s, r = Ok a s /\ cells s = m.
Proof. destruct r as [a s|e s]; [intros [= <-]; eauto | discriminate]. Qed.

Lemma iters_app (body : Z -> Z -> M unit) (strideX strideY : Z) (n k : nat) :
  forall (ix iy : Z) (s : state),
    iters (n + k) body strideX strideY ix iy s
    = match iters n body strideX strideY ix iy s with
      | Ok _ s' => iters k body strideX strideY
                     (walk n strideX ix) (walk n strideY iy) s'
      | Err e s' => Err e s'
      end.
Proof.
  induction n as [|n IH]; intros ix iy s; [reflexivity|].
  change (S n + k)%nat with (S (n + k)). rewrite !iters_S.
  destruct (body ix iy s) as [[] s'|e s']; [|reflexivity].
  rewrite IH. simpl walk. now rewrite !walk_shift.
Qed.

(** A call of [N] iterations passes through the state left by its first
    [i] iterations, which is the state [rotate i] returns. *)
Lemma rotate_resume (N X strideX offsetX Y strideY offsetY P : Z) (s0 : state)
    (flag h11 h21 h12 h22 : float) (i : Z) :
  0 <= i <= N -> N < I32.half ->
  param_is (cells s0) P flag h11 h21 h12 h22 ->
  (flag =? -2)%float = false ->
  rotate N X strideX offsetX Y strideY offsetY P s0
  = match rotate i X strideX offsetX Y strideY offsetY P s0 with
    | Ok _ s_i =>
        iters (Z.to_nat (N - i))
          (iteration X Y (same_walk strideX strideY) (branch_of flag) h11 h21 h12 h22)
          strideX strideY
          (walk (Z.to_nat i) strideX offsetX) (walk (Z.to_nat i) strideY offsetY) s_i
    | Err e s' => Err e s'
    end.
Proof.
  intros Hi HN Hp Hf.
  assert (H1 : 0 <= N < I32.half) by lia.
  assert (H2 : 0 <= i < I32.half) by lia.
  rewrite (rotate_run _ _ _ _ _ _ _ _ _ _ _ _ _ _ H1 Hp Hf).
  rewrite (rotate_run _ _ _ _ _ _ _ _ _ _ _ _ _ _ H2 Hp Hf).
  replace (Z.to_nat N) with (Z.to_nat i + Z.to_nat (N - i))%nat by lia.
  apply iters_app.
Qed.

Lemma kernel_is_rotate (N X strideX offsetX Y strideY offsetY P : Z) (s : state) :
  0 < N ->
  c_drotm_ndarray N X strideX offsetX Y strideY offsetY P s
  = rotate N X strideX offsetX Y strideY offsetY P s.
Proof.
  intros HN. unfold c_drotm_ndarray, I32.le_s.
  destruct (N <=? 0) eqn:E; [apply Z.leb_le in E; lia | reflexivity].
Qed.

Lemma branch_of_minus_one (f : float) : (f =? -1)%float = true -> branch_of f = Neg.
Proof. intros H. now rewrite (F64Facts.eqb_minus_one f H). Qed.

Lemma branch_of_zero (f : float) : (f =? 0)%float = true -> branch_of f = Zero.
Proof. intros H. now destruct (F64Facts.eqb_zero f H) as [-> | ->]. Qed.

Lemma branch_of_one (f : float) : (f =? 1)%float = true -> branch_of f = Pos.
Proof. intros H. now rewrite (F64Facts.eqb_one f H). Qed.

Lemma not_minus_two (f : float) :
  (f =? -1)%float = true \/ (f =? 0)%float = true \/ (f =? 1)%float = true ->
  (f =? -2)%float = false.
Proof.
  intros [H | [H | H]].
  - now rewrite (F64Facts.eqb_minus_one f H).
  - now destruct (F64Facts.eqb_zero f H) as [-> | ->].
  - now rewrite (F64Facts.eqb_one f H).
Qed.

(** ** Walks that do not meet

    When no iteration loads what an earlier one stored, reading every
    pair from a copy of the buffer made before the call gives the same
    cells. *)

Lemma peek_aligned (m : list float) (a : Z) : is_Some (peek m a) -> a mod 8 = 0.
Proof.
  unfold peek. destruct (_ <? _); [intros [? ?]; discriminate|].
  destruct (a mod 8 =? 0) eqn:E; [intros _; now apply Z.eqb_eq|].
  intros [? ?]; discriminate.
Qed.

Lemma peek_insert_other (m : list float) (a b : Z) (v : float) :
  0 <= a -> 0 <= b -> b mod 8 = 0 -> a <> b ->
  peek (<[cell_of b := v]> m) a = peek m a.
Proof.
  intros Ha Hb Hbm Hab. unfold peek. rewrite length_insert.
  destruct (_ <? _); [reflexivity|].
  destruct (a mod 8 =? 0) eqn:E; [|reflexivity]. apply Z.eqb_eq in E. simpl.
  apply list_lookup_insert_ne. unfold cell_of. intros Heq.
  apply Z2Nat.inj in Heq; [|apply Z.div_pos; lia|apply Z.div_pos; lia].
  apply Hab. rewrite (Z.div_mod a 8), (Z.div_mod b 8) by lia. lia.
Qed.

Lemma rotate_pair_frame (F : float -> float -> float * float) (ax ay : Z)
    (m m' : list float) (a : Z) :
  0 <= a -> 0 <= ax -> 0 <= ay ->
  Spec.rotate_pair F ax ay m = Some m' ->
  a <> ax -> a <> ay ->
  peek m' a = peek m a.
Proof.
  intros Ha Hx Hy. unfold Spec.rotate_pair.
  destruct (peek m ax) as [w|] eqn:Hw; [|discriminate].
  destruct (peek m ay) as [z|] eqn:Hz; [|discriminate].
  intros [= <-] Hax Hay.
  rewrite !peek_insert_other; eauto using peek_aligned.
Qed.

Lemma rotate_pairs_frame (F : float -> float -> float * float) (xa ya : Z -> Z)
    (n : nat) (m m' : list float) (a : Z) :
  (forall i, 0 <= xa i /\ 0 <= ya i) -> 0 <= a ->
  Spec.rotate_pairs n F xa ya m = Some m' ->
  (forall i, 0 <= i < Z.of_nat n -> a <> xa i /\ a <> ya i) ->
  peek m' a = peek m a.
Proof.
  intros Hnn Ha. revert m'. induction n as [|n IH]; intros m' Hrun Hsep.
  - now injection Hrun as <-.
  - simpl in Hrun.
    destruct (Spec.rotate_pairs n F xa ya m) as [m1|] eqn:E; [|discriminate].
    destruct (Hsep (Z.of_nat n)) as [H1 H2]; [lia|].
    rewrite (rotate_pair_frame _ _ _ _ _ a Ha (proj1 (Hnn _)) (proj2 (Hnn _)) Hrun H1 H2).
    apply IH; [reflexivity|]. intros i Hi. apply Hsep. lia.
Qed.

Lemma rotate_pairs_from_copy (F : float -> float -> float * float) (xa ya : Z -> Z)
    (n : nat) (m : list float) :
  (forall i, 0 <= xa i /\ 0 <= ya i) ->
  Spec.separate (Z.of_nat n) xa ya ->
  Spec.rotate_pairs n F xa ya m = Spec.rotate_from_copy n F xa ya m m.
Proof.
  intros Hnn. induction n as [|n IH]; intros Hsep; [reflexivity|].
  simpl. rewrite <- IH by (intros i j Hi Hj; apply Hsep; lia).
  destruct (Spec.rotate_pairs n F xa ya m) as [m1|] eqn:E; [|reflexivity].
  unfold Spec.rotate_pair.
  rewrite (rotate_pairs_frame F xa ya n m m1 (xa (Z.of_nat n)) Hnn (proj1 (Hnn _)) E)
    by (intros i Hi; destruct (Hsep i (Z.of_nat n)) as (? & ? & _); auto; lia).
  rewrite (rotate_pairs_frame F xa ya n m m1 (ya (Z.of_nat n)) Hnn (proj2 (Hnn _)) E)
    by (intros i Hi; destruct (Hsep i (Z.of_nat n)) as (_ & _ & ? & ?); auto; lia).
  reflexivity.
Qed.

(** ** The fuel always suffices

    For every [N] that is a 32-bit integer the loops leave before the
    fuel is spent: a call returns or stops at a load or a store. *)

Lemma bind_fuel {A B : Type} (c : M A) (k : A -> M B) (s : state) :
  fuel_sufficed (c s) ->
  (forall a s', fuel_sufficed (k a s')) ->
  fuel_sufficed (bind c k s).
Proof.
  unfold bind. intros Hc Hk. destruct (c s) as [a s'|e s']; [apply Hk | exact Hc].
Qed.

Lemma f64_load_fuel (b k : Z) (s : state) : fuel_sufficed (f64_load b k s).
Proof.
  unfold f64_load. cbv zeta. destruct (_ <? _); [exact I|].
  destruct (negb _); [exact I|]. now destruct (cells s !! _).
Qed.

Lemma f64_store_fuel (b k : Z) (v : float) (s : state) :
  fuel_sufficed (f64_store b k v s).
Proof.
  unfold f64_store. cbv zeta. destruct (_ <? _); [exact I|].
  now destruct (negb _).
Qed.

Ltac fuel_steps :=
  repeat first
    [ apply f64_load_fuel
    | apply f64_store_fuel
    | apply bind_fuel; [|intros ? ?] ].

Lemma iteration_fuel (X Y : Z) (same : bool) (br : branch)
    (h11 h21 h12 h22 : float) (ix iy : Z) (s : state) :
  fuel_sufficed (iteration X Y same br h11 h21 h12 h22 ix iy s).
Proof.
  destruct same, br; unfold iteration, body_same_neg, body_same_zero, body_same_pos,
    body_gen_neg, body_gen_zero, body_gen_pos; cbv zeta; fuel_steps.
Qed.

Lemma iters_fuel (body : Z -> Z -> M unit) (strideX strideY : Z) (n : nat) :
  (forall ix iy s, fuel_sufficed (body ix iy s)) ->
  forall ix iy s, fuel_sufficed (iters n body strideX strideY ix iy s).
Proof.
  intros Hb. induction n as [|n IH]; intros ix iy s; [exact I|].
  rewrite iters_S. specialize (Hb ix iy s).
  destruct (body ix iy s) as [[] s'|e s']; [apply IH | exact Hb].
Qed.

Lemma rotate_fuel (N X strideX offsetX Y strideY offsetY P : Z) (s : state) :
  0 <= N < I32.half ->
  fuel_sufficed (rotate N X strideX offsetX Y strideY offsetY P s).
Proof.
  intros HN. unfold rotate.
  apply bind_fuel; [apply f64_load_fuel|]. intros dflag s1.
  destruct (dflag =? -2)%float; [exact I|].
  destruct (negb _);
    destruct (dflag <? 0)%float;
    [| destruct (dflag =? 0)%float | | destruct (dflag =? 0)%float];
    repeat (apply bind_fuel; [apply f64_load_fuel | intros ? ?]);
    unfold fuel_for;
    first
      [ rewrite (loop_same_iters _ N strideX strideY (S (Z.to_nat N)) (proj2 HN)
                   0 offsetX offsetY) by lia
      | rewrite (loop_gen_iters _ N strideX strideY (S (Z.to_nat N)) (proj2 HN)
                   0 offsetX offsetY) by lia ];
    apply iters_fuel; intros ix iy s2;
    unfold body_same_neg, body_same_zero, body_same_pos,
      body_gen_neg, body_gen_zero, body_gen_pos; cbv zeta; fuel_steps.
Qed.

Lemma kernel_fuel (N X strideX offsetX Y strideY offsetY P : Z) (s : state) :
  N < I32.half ->
  fuel_sufficed (c_drotm_ndarray N X strideX offsetX Y strideY offsetY P s).
Proof.
  intros HN. unfold c_drotm_ndarray, I32.le_s.
  destruct (N <=? 0) eqn:E; [exact I|]. apply Z.leb_gt in E.
  apply rotate_fuel. lia.
Qed.

(** * The claims *)

Section Iterations.

Variables N X strideX offsetX Y strideY offsetY P : Z.
Variable s0 : state.
Variables flag h11 h21 h12 h22 : float.

Hypothesis N_positive : 0 < N < I32.half.
Hypothesis param_read : param_is (cells s0) P flag h11 h21 h12 h22.

(** The call stopped after [i] trips of its loop. *)
Local Abbreviation after i := (rotate i X strideX offsetX Y strideY offsetY P s0).
Local Abbreviation ax i := (x_addr X strideX offsetX i).
Local Abbreviation ay i := (y_addr Y strideX offsetX strideY offsetY i).


(** The whole call against the reference: the call returns exactly when
    the reference rotates every pair, and leaves the cells the reference
    leaves. *)
Lemma kernel_refines :
  (flag =? -2)%float = false ->
  returned_cells (c_drotm_ndarray N X strideX offsetX Y strideY offsetY P s0)
  = Spec.rotate_pairs (Z.to_nat N) (Spec.by_sign flag h11 h21 h12 h22)
      (x_addr X strideX offsetX) (y_addr Y strideX offsetX strideY offsetY) (cells s0).
Proof.
  intros Hf. rewrite kernel_is_rotate by lia.
  rewrite (rotate_refines N X strideX offsetX Y strideY offsetY P s0
             flag h11 h21 h12 h22) by (auto; lia).
  apply rotate_pairs_ext. intros; apply stored_by_sign.
Qed.



End Iterations.

(** Two vectors interleaved in one buffer, [x] on the even doubles and
    [y] on the odd ones: the walks do not meet. *)
Lemma interleaved_separate (X N : Z) :
  0 <= X -> X + 16 * N <= I32.modulus ->
  Spec.separate N (x_addr X 2 0) (y_addr (X + 8) 2 0 2 0).
Proof.
  intros HX HN i j Hi Hj. rewrite I32Facts.modulus_eq in HN.
  unfold x_addr, y_addr, x_index, y_index. change (same_walk 2 2) with true.
  cbv iota. unfold addr, I32.unsigned. rewrite I32Facts.modulus_eq.
  rewrite !Z.mod_small by lia. lia.
Qed.




(** ** The methods of [Module] *)

Lemma Module_ndarray_unfold (N xptr strideX offsetX yptr strideY offsetY pptr : Z)
    (s : state) :
  Module_ndarray N xptr strideX offsetX yptr strideY offsetY pptr s
  = match c_drotm_ndarray (I32.wrap N) (I32.wrap xptr) (I32.wrap strideX)
            (I32.wrap offsetX) (I32.wrap yptr) (I32.wrap strideY)
            (I32.wrap offsetY) (I32.wrap pptr) s with
    | Ok _ s' => Ok yptr s'
    | Err e s' => Err e s'
    end.
Proof. reflexivity. Qed.

Lemma Module_main_unfold (N xptr strideX yptr strideY pptr : Z) (s : state) :
  Module_main N xptr strideX yptr strideY pptr s
  = match c_drotm (I32.wrap N) (I32.wrap xptr) (I32.wrap strideX)
            (I32.wrap yptr) (I32.wrap strideY) (I32.wrap pptr) s with
    | Ok _ s' => Ok yptr s'
    | Err e s' => Err e s'
    end.
Proof. reflexivity. Qed.

(** The kernel does nothing when [N <= 0], and only loads the flag when
    the flag is [-2.0]. *)
Lemma kernel_noop (N X strideX offsetX Y strideY offsetY P : Z) (s : state) :
  N <= 0 \/ (exists flag, peek (cells s) (param_addr P 0) = Some flag
                          /\ (flag =? -2)%float = true) ->
  exists s', c_drotm_ndarray N X strideX offsetX Y strideY offsetY P s = Ok tt s'
             /\ cells s' = cells s.
Proof.
  intros H. unfold c_drotm_ndarray, I32.le_s.
  destruct (N <=? 0) eqn:E; [unfold ret; eauto|].
  apply Z.leb_gt in E. destruct H as [H | (flag & Hflag & Hm2)]; [lia|].
  destruct s as [m l]. simpl cells in *. unfold rotate, bind.
  rewrite (load_param P 0 m l flag Hflag : f64_load P 0 (State m l) = _), Hm2.
  unfold ret. eauto.
Qed.

(** What the kernel is told when a method is called in one of the two
    cases. *)
Lemma noop_reaches_kernel (N pptr : Z) (s : state) :
  (I32.in_range N /\ N <= 0) \/
  (exists flag, peek (cells s) (param_addr (I32.wrap pptr) 0) = Some flag
                /\ (flag =? -2)%float = true) ->
  I32.wrap N <= 0 \/
  (exists flag, peek (cells s) (param_addr (I32.wrap pptr) 0) = Some flag
                /\ (flag =? -2)%float = true).
Proof.
  intros [[HN H0] | H0]; [left | now right].
  now rewrite (I32Facts.wrap_id N HN).
Qed.

(** C2. For a call whose [N] is a 32-bit integer not above zero, zero
    and the negative ones included, and for a call whose [param[0]] is
    [-2.0], whatever [N] and the rest of [param] are: both methods
    return, with the pointer to [y] they were given, and leave every
    double of the memory as it was. *)
Theorem noop_leaves_vectors
    (N xptr strideX offsetX yptr strideY offsetY pptr : Z) (s : state) :
  (I32.in_range N /\ N <= 0) \/
  (exists flag, peek (cells s) (param_addr (I32.wrap pptr) 0) = Some flag
                /\ (flag =? -2)%float = true) ->
  (exists s', Module_ndarray N xptr strideX offsetX yptr strideY offsetY pptr s
              = Ok yptr s' /\ cells s' = cells s) /\
  (exists s', Module_main N xptr strideX yptr strideY pptr s
              = Ok yptr s' /\ cells s' = cells s).
Proof.
  intros H0. apply noop_reaches_kernel in H0 as H.
  rewrite Module_ndarray_unfold, Module_main_unfold. unfold c_drotm. split.
  - destruct (kernel_noop (I32.wrap N) (I32.wrap xptr) (I32.wrap strideX)
                (I32.wrap offsetX) (I32.wrap yptr) (I32.wrap strideY)
                (I32.wrap offsetY) (I32.wrap pptr) s H) as (s' & -> & Hs').
    eauto.
  - match goal with
    | |- context [c_drotm_ndarray ?n ?x ?sx ?ox ?y ?sy ?oy ?p s] =>
        destruct (kernel_noop n x sx ox y sy oy p s H) as (s' & -> & Hs')
    end.
    eauto.
Qed.

Lemma noop_leaves_vectors_witness :
  (exists s', Module_ndarray 5 0 1 0 40 1 0 80 (memory_with_flag (-2)) = Ok 40 s'
              /\ cells s' = cells (memory_with_flag (-2))) /\
  (exists s', Module_main 5 0 1 40 1 80 (memory_with_flag (-2)) = Ok 40 s'
              /\ cells s' = cells (memory_with_flag (-2))).
Proof.
  apply noop_leaves_vectors.
  right. exists (-2)%float. split; vm_compute; reflexivity.
Defined.

(** C4. For strides that are 32-bit integers, and every [N], pointers
    and memory, the method [main] is the method [ndarray] called with the
    offsets [(1-N)*stride] for a negative stride and [0] otherwise: the
    same returned value, the same memory, the same loads and stores, the
    same failure. *)
Theorem main_is_ndarray (N xptr strideX yptr strideY pptr : Z) (s : state) :
  I32.in_range strideX ->
  I32.in_range strideY ->
  Module_main N xptr strideX yptr strideY pptr s
  = Module_ndarray N xptr strideX (Spec.default_offset N strideX)
                     yptr strideY (Spec.default_offset N strideY) pptr s.
Proof.
  intros HX HY.
  assert (Hoff : forall stride, I32.in_range stride ->
    (if I32.le_s (I32.wrap stride) 0
     then I32.mul (I32.sub 1 (I32.wrap N)) (I32.wrap stride) else 0)
    = I32.wrap (Spec.default_offset N stride)).
  { intros stride Hs. rewrite (I32Facts.wrap_id stride Hs).
    unfold Spec.default_offset, I32.le_s, I32.mul, I32.sub.
    destruct (stride <=? 0) eqn:E1, (stride <? 0) eqn:E2.
    - now rewrite I32Facts.wrap_sub_r, I32Facts.wrap_mul_l.
    - apply Z.leb_le in E1. apply Z.ltb_ge in E2.
      assert (stride = 0) by lia. subst. now rewrite Z.mul_0_r.
    - apply Z.leb_gt in E1. apply Z.ltb_lt in E2. lia.
    - reflexivity. }
  rewrite Module_ndarray_unfold, Module_main_unfold. unfold c_drotm.
  now rewrite (Hoff strideX HX), (Hoff strideY HY).
Qed.

Lemma main_is_ndarray_witness :
  Module_main 3 0 (-1) 40 (-2) 80 example_memory
  = Module_ndarray 3 0 (-1) (Spec.default_offset 3 (-1))
                     40 (-2) (Spec.default_offset 3 (-2)) 80 example_memory.
Proof.
  apply main_is_ndarray; unfold I32.in_range; rewrite I32Facts.half_eq; lia.
Defined.

(** C6. With [x = [1,2,3,4,5]] at byte 0, [y = [1,1,1,1,1]] at byte 40
    and [param = [0,0,2,-3,0]] at byte 80 of a memory of one page, both
    methods called with [N = 5], strides 1 (and offsets 0) return the
    pointer to [y] and leave [x = [-2,-1,0,1,2]], [y = [3,5,7,9,11]] and
    the rest of the memory as it was. *)
Theorem scenario_one :
  (exists s',
     Module_ndarray 5 0 1 0 40 1 0 80 example_memory = Ok 40 s' /\
     take 5 (cells s') = [-2; -1; 0; 1; 2]%float /\
     take 5 (drop 5 (cells s')) = [3; 5; 7; 9; 11]%float /\
     drop 10 (cells s') = drop 10 (cells example_memory)) /\
  (exists s',
     Module_main 5 0 1 40 1 80 example_memory = Ok 40 s' /\
     take 5 (cells s') = [-2; -1; 0; 1; 2]%float /\
     take 5 (drop 5 (cells s')) = [3; 5; 7; 9; 11]%float /\
     drop 10 (cells s') = drop 10 (cells example_memory)).
Proof.
  split; eexists; (split; [vm_compute; reflexivity|]); repeat split;
    vm_compute; reflexivity.
Qed.


(** ** The branch of equal positive strides *)

(** In that branch the [y] element of iteration [i] is taken at the
    index of the [x] element: [offsetY] is not used. *)
Lemma same_walk_y_index (strideX offsetX strideY offsetY i : Z) :
  strideX = strideY -> 0 < strideX ->
  y_index strideX offsetX strideY offsetY i = offsetX + i * strideX.
Proof.
  intros <- H. unfold y_index, same_walk, I32.ne, I32.le_s.
  rewrite Z.eqb_refl. destruct (strideX <=? 0) eqn:E; [apply Z.leb_le in E; lia|].
  reflexivity.
Qed.

(** In the other branch it is taken where the specification says. *)
Lemma general_y_index (strideX offsetX strideY offsetY i : Z) :
  strideX <> strideY \/ strideX <= 0 ->
  y_index strideX offsetX strideY offsetY i = offsetY + i * strideY.
Proof.
  intros H. unfold y_index, same_walk, I32.ne, I32.le_s.
  destruct (strideX =? strideY) eqn:E1, (strideX <=? 0) eqn:E2; try reflexivity.
  apply Z.eqb_eq in E1. apply Z.leb_gt in E2. lia.
Qed.

(** A walk by [-stride] from the last element visits the addresses of
    the walk by [stride] from the first, in the opposite order. *)
Lemma x_walk_reversed (X stride offset N i : Z) :
  x_addr X (- stride) (offset + (N - 1) * stride) i
  = x_addr X stride offset (N - 1 - i).
Proof. unfold x_addr, x_index. f_equal. lia. Qed.

(** C3 says that iteration [i] loads and stores the [y] element of
    index [offsetY + i*strideY], whatever the strides and offsets. It
    does not when [strideX == strideY > 0] and the offsets differ. At
    [N = 2], [strideX = strideY = 1], [offsetX = 0], [offsetY = 1],
    with [x] at byte 0 and [y = [10,20,30,40,50]] at byte 40, those
    elements are at bytes 48 and 56; the call loads and stores the
    doubles at bytes 40 and 48, of indices [offsetX + i*strideX], and
    leaves [y[2]] as it was. *)
Theorem equal_strides_ignore_offsetY :
  exists s',
    Module_ndarray 2 0 1 0 40 1 1 80 distinct_memory = Ok 40 s' /\
    log s' = [Rd 80 1; Rd 112 1; Rd 88 1;
              Rd 0 1; Rd 40 10; Wr 0 11; Wr 40 9;
              Rd 8 2; Rd 48 20; Wr 8 22; Wr 48 18]%float /\
    map (fun i => addr 40 (1 + i * 1)) [0; 1] = [48; 56] /\
    map (y_addr 40 1 0 1 1) [0; 1] = [40; 48] /\
    take 5 (drop 5 (cells s')) = [9; 18; 30; 40; 50]%float.
Proof.
  eexists. split; [vm_compute; reflexivity|].
  repeat split; vm_compute; reflexivity.
Qed.

(** C8 says that a walk by a negative stride from the high offset
    touches the addresses of the walk by the positive stride from the
    low offset, in the opposite order, with the same results in logical
    order. It does not for [y] when [strideX == strideY > 0] and the
    offsets differ. The two doubles of [y] at indices 1 and 2 are
    processed once by stride 1 from offset 1 and once by stride -1 from
    offset 2, [x] being walked by stride 1 from offset 0 both times. The
    second call loads and stores bytes 56 and 48 of the memory; the first
    loads and stores bytes 40 and 48, not 48 and 56. With the two
    doubles laid out in the opposite order for the second call, so that
    both calls process the logical sequence [20, 30], the first leaves
    [x = [11, 22]] and the logical [y = [18, 30]], the second
    [x = [21, 32]] and [y = [19, 28]]. *)
Theorem equal_strides_break_symmetry :
  exists s_up s_down s_down',
    Module_ndarray 2 0 1 0 40 1 1 80 distinct_memory = Ok 40 s_up /\
    Module_ndarray 2 0 1 0 40 (-1) 2 80 distinct_memory = Ok 40 s_down /\
    Module_ndarray 2 0 1 0 40 (-1) 2 80 exchanged_memory = Ok 40 s_down' /\
    stores_in 40 80 (log s_up) = [40; 48] /\
    stores_in 40 80 (log s_down) = [56; 48] /\
    loads_in 40 80 (log s_up) = [40; 48] /\
    loads_in 40 80 (log s_down) = [56; 48] /\
    take 2 (cells s_up) = [11; 22]%float /\
    take 2 (cells s_down') = [21; 32]%float /\
    [cells s_up !! 6%nat; cells s_up !! 7%nat] = [Some 18; Some 30]%float /\
    [cells s_down' !! 7%nat; cells s_down' !! 6%nat] = [Some 19; Some 28]%float.
Proof.
  do 3 eexists. repeat (split; [vm_compute; reflexivity|]). vm_compute; reflexivity.
Qed.

(** ** The length of [param] *)


Ltac step_param_load m :=
  match goal with
  | |- context [f64_load ?P ?o (State m ?l)] =>
      let E := fresh "E" in
      let v := fresh "v" in
      destruct (peek m (effective P o)) as [v|] eqn:E;
      [ rewrite (f64_load_ok P o (State m l) v E); simpl cells
      | let e := fresh "e" in
        let He := fresh "He" in
        destruct (f64_load_err P o (State m l) E) as [e He];
        rewrite He; eauto ]
  end.



(** * Further properties of the kernel *)

(** ** A loop body is a function of the two addresses *)

Lemma f64_load_at (b k : Z) : f64_load b k = load_at (effective b k).
Proof. reflexivity. Qed.

Lemma f64_store_at (b k : Z) (v : float) : f64_store b k v = store_at (effective b k) v.
Proof. reflexivity. Qed.

Lemma iteration_by_address (X Y : Z) (same : bool) (br : branch)
    (h11 h21 h12 h22 : float) (ix iy : Z) :
  iteration X Y same br h11 h21 h12 h22 ix iy
  = access_pair br h11 h21 h12 h22 (addr X ix) (addr Y (if same then ix else iy)).
Proof.
  destruct same, br; unfold iteration, body_same_neg, body_same_zero, body_same_pos,
    body_gen_neg, body_gen_zero, body_gen_pos, access_pair; cbv zeta;
    rewrite <- !effective_element; reflexivity.
Qed.

Lemma iters_ext (body body' : Z -> Z -> M unit) (strideX strideY : Z) (n : nat) :
  forall (ix iy ix' iy' : Z) (s : state),
    (forall k, body (walk k strideX ix) (walk k strideY iy)
               = body' (walk k strideX ix') (walk k strideY iy')) ->
    iters n body strideX strideY ix iy s = iters n body' strideX strideY ix' iy' s.
Proof.
  induction n as [|n IH]; intros ix iy ix' iy' s H; [reflexivity|].
  rewrite !iters_S. pose proof (H O) as H0. simpl walk in H0. rewrite <- H0.
  destruct (body ix iy s) as [[] s'|e s']; [|reflexivity].
  apply IH. intros k. rewrite !walk_shift. apply (H (S k)).
Qed.

(** Two calls whose iterations meet the same addresses are the same
    computation, whatever pointers and offsets produce the addresses. *)
Lemma rotate_ext (N X strideX offsetX Y strideY offsetY X' offsetX' Y' offsetY' P : Z) :
  0 <= N < I32.half ->
  (forall br h11 h21 h12 h22 k,
     iteration X Y (same_walk strideX strideY) br h11 h21 h12 h22
       (walk k strideX offsetX) (walk k strideY offsetY)
     = iteration X' Y' (same_walk strideX strideY) br h11 h21 h12 h22
         (walk k strideX offsetX') (walk k strideY offsetY')) ->
  forall s : state,
    rotate N X strideX offsetX Y strideY offsetY P s
    = rotate N X' strideX offsetX' Y' strideY offsetY' P s.
Proof.
  intros HN H s. unfold rotate, bind.
  destruct (f64_load P 0 s) as [dflag s1|e s1]; [|reflexivity].
  destruct (dflag =? -2)%float; [reflexivity|].
  change (negb (I32.ne strideX strideY || I32.le_s strideX 0))
    with (same_walk strideX strideY) in *.
  destruct (same_walk strideX strideY);
    destruct (dflag <? 0)%float;
    [| destruct (dflag =? 0)%float | | destruct (dflag =? 0)%float];
    repeat match goal with
           | |- context [f64_load P ?o ?st] =>
               destruct (f64_load P o st) as [? ?|? ?]; [|reflexivity]
           end;
    unfold fuel_for;
    first
      [ rewrite (loop_same_iters _ N strideX strideY (S (Z.to_nat N)) (proj2 HN)
                   0 offsetX offsetY) by lia;
        rewrite (loop_same_iters _ N strideX strideY (S (Z.to_nat N)) (proj2 HN)
                   0 offsetX' offsetY') by lia
      | rewrite (loop_gen_iters _ N strideX strideY (S (Z.to_nat N)) (proj2 HN)
                   0 offsetX offsetY) by lia;
        rewrite (loop_gen_iters _ N strideX strideY (S (Z.to_nat N)) (proj2 HN)
                   0 offsetX' offsetY') by lia ];
    apply iters_ext; intros k;
    first [ exact (H Neg _ _ _ _ k)
          | exact (H Zero 0%float _ _ 0%float k)
          | exact (H Pos _ 0%float 0%float _ k) ].
Qed.

Lemma addr_advance (p o k : Z) : addr (I32.add p (I32.shl o 3)) k = addr p (o + k).
Proof.
  unfold addr. rewrite <- I32Facts.unsigned_add_l.
  pose proof (effective_element p o) as E. unfold effective in E.
  rewrite Z.add_0_r in E. rewrite E. unfold addr.
  rewrite I32Facts.unsigned_add_l. f_equal. lia.
Qed.

(** X1. An offset is pointer arithmetic. A call with offsets is the call
    with offsets 0 on the pointers advanced by the offsets, eight bytes
    an element: the same result, the same memory, the same loads and
    stores in the same order, the same failure. In the branch of equal
    positive strides the pointer to [y] is advanced by [offsetX]. *)
Theorem offsets_advance_pointers
    (N X strideX offsetX Y strideY offsetY P : Z) (s : state) :
  N < I32.half ->
  c_drotm_ndarray N X strideX offsetX Y strideY offsetY P s
  = c_drotm_ndarray N
      (I32.add X (I32.shl offsetX 3)) strideX 0
      (I32.add Y (I32.shl (y_start strideX offsetX strideY offsetY) 3)) strideY 0
      P s.
Proof.
  intros HN. unfold c_drotm_ndarray, I32.le_s.
  destruct (N <=? 0) eqn:E; [reflexivity|]. apply Z.leb_gt in E.
  apply rotate_ext; [lia|]. intros br h11 h21 h12 h22 k.
  rewrite !iteration_by_address. f_equal.
  - rewrite !addr_walk, addr_advance. f_equal; lia.
  - unfold y_start. destruct (same_walk strideX strideY);
      rewrite !addr_walk, addr_advance; f_equal; lia.
Qed.

Lemma offsets_advance_pointers_witness :
  c_drotm_ndarray 2 0 1 1 40 2 1 80 example_memory
  = c_drotm_ndarray 2 (I32.add 0 (I32.shl 1 3)) 1 0
      (I32.add 40 (I32.shl (y_start 1 1 2 1) 3)) 2 0 80 example_memory.
Proof.
  apply offsets_advance_pointers. rewrite I32Facts.half_eq. lia.
Defined.

(** ** What a call leaves alone *)

Lemma rotate_pair_other_cell (F : float -> float -> float * float) (ax ay : Z)
    (m m' : list float) (c : nat) :
  Spec.rotate_pair F ax ay m = Some m' ->
  c <> cell_of ax -> c <> cell_of ay ->
  m' !! c = m !! c.
Proof.
  unfold Spec.rotate_pair. destruct (peek m ax), (peek m ay); try discriminate.
  intros [= <-] Hx Hy. now rewrite !list_lookup_insert_ne by auto.
Qed.

Lemma rotate_pairs_other_cell (F : float -> float -> float * float) (xa ya : Z -> Z)
    (n : nat) (m m' : list float) (c : nat) :
  Spec.rotate_pairs n F xa ya m = Some m' ->
  (forall i, 0 <= i < Z.of_nat n -> c <> cell_of (xa i) /\ c <> cell_of (ya i)) ->
  m' !! c = m !! c.
Proof.
  revert m'. induction n as [|n IH]; intros m' Hrun Hc.
  - now injection Hrun as <-.
  - simpl in Hrun.
    destruct (Spec.rotate_pairs n F xa ya m) as [m1|] eqn:E; [|discriminate].
    destruct (Hc (Z.of_nat n)) as [H1 H2]; [lia|].
    rewrite (rotate_pair_other_cell _ _ _ _ _ c Hrun H1 H2).
    apply IH; [reflexivity|]. intros i Hi. apply Hc. lia.
Qed.

(** X2. A call that returns has changed no double of the memory other than
    the elements of [x] and [y] of its [N] iterations, and has not
    changed the size of the memory. In particular [param] is as it was
    unless a vector lies over it. *)
Theorem call_changes_the_vectors_only
    (N X strideX offsetX Y strideY offsetY P : Z) (s0 s' : state)
    (flag h11 h21 h12 h22 : float) :
  N < I32.half ->
  param_is (cells s0) P flag h11 h21 h12 h22 ->
  c_drotm_ndarray N X strideX offsetX Y strideY offsetY P s0 = Ok tt s' ->
  length (cells s') = length (cells s0) /\
  forall c : nat,
    (forall i, 0 <= i < N ->
       c <> cell_of (x_addr X strideX offsetX i) /\
       c <> cell_of (y_addr Y strideX offsetX strideY offsetY i)) ->
    cells s' !! c = cells s0 !! c.
Proof.
  intros HN Hp Hrun.
  destruct (Z.leb_spec N 0) as [Hle | Hpos].
  - destruct (kernel_noop N X strideX offsetX Y strideY offsetY P s0) as (s1 & E & Hc);
      [now left|].
    rewrite E in Hrun. injection Hrun as <-. rewrite Hc. auto.
  - destruct (flag =? -2)%float eqn:Hf.
    + destruct (kernel_noop N X strideX offsetX Y strideY offsetY P s0) as (s1 & E & Hc).
      { right. exists flag. split; [apply Hp | exact Hf]. }
      rewrite E in Hrun. injection Hrun as <-. rewrite Hc. auto.
    + rewrite kernel_is_rotate in Hrun by lia.
      pose proof (rotate_refines N X strideX offsetX Y strideY offsetY P s0
                    flag h11 h21 h12 h22 ltac:(lia) Hp Hf) as Href.
      rewrite Hrun in Href. simpl in Href. symmetry in Href. split.
      * apply (rotate_pairs_length _ _ _ _ _ _ Href).
      * intros c Hc. apply (rotate_pairs_other_cell _ _ _ _ _ _ c Href).
        intros i Hi. apply Hc. lia.
Qed.

Lemma call_changes_the_vectors_only_witness :
  length (cells (final_state (c_drotm_ndarray 5 0 1 0 40 1 0 80 example_memory)))
  = length (cells example_memory) /\
  forall c : nat,
    (forall i, 0 <= i < 5 ->
       c <> cell_of (x_addr 0 1 0 i) /\ c <> cell_of (y_addr 40 1 0 1 0 i)) ->
    cells (final_state (c_drotm_ndarray 5 0 1 0 40 1 0 80 example_memory)) !! c
    = cells example_memory !! c.
Proof.
  apply (call_changes_the_vectors_only 5 0 1 0 40 1 0 80 example_memory _ 0 0 2 (-3) 0).
  - rewrite I32Facts.half_eq. lia.
  - repeat split; vm_compute; reflexivity.
  - vm_compute. reflexivity.
Defined.

(** ** The accesses of a call, in order *)

Lemma footprint_app (l1 l2 : list event) :
  footprint (l1 ++ l2) = footprint l1 ++ footprint l2.
Proof. apply map_app. Qed.

Lemma footprint_prologue (br : branch) (P : Z) (flag h11 h21 h12 h22 : float) :
  footprint (prologue br P flag h11 h21 h12 h22) = prologue_footprint br P.
Proof. now destruct br. Qed.

Lemma footprint_iteration (s : state) (br : branch) (h11 h21 h12 h22 : float)
    (ax ay : Z) (w z : float) :
  footprint (log (after_iteration s br h11 h21 h12 h22 ax ay w z))
  = footprint (log s) ++ iteration_footprint br ax ay.
Proof.
  unfold after_iteration. cbv zeta. simpl log.
  rewrite !footprint_app. now destruct br.
Qed.

(** An iteration that returns has found its two elements. *)
Lemma iteration_returns (X Y : Z) (same : bool) (br : branch)
    (h11 h21 h12 h22 : float) (ix iy : Z) (s s' : state) :
  iteration X Y same br h11 h21 h12 h22 ix iy s = Ok tt s' ->
  exists w z,
    peek (cells s) (addr X ix) = Some w /\
    peek (cells s) (addr Y (if same then ix else iy)) = Some z /\
    s' = after_iteration s br h11 h21 h12 h22
           (addr X ix) (addr Y (if same then ix else iy)) w z.
Proof.
  intros Hrun.
  destruct (peek (cells s) (addr X ix)) as [w|] eqn:Hw.
  - destruct (peek (cells s) (addr Y (if same then ix else iy))) as [z|] eqn:Hz.
    + rewrite (iteration_ok _ _ _ _ _ _ _ _ _ _ _ _ _ Hw Hz) in Hrun.
      injection Hrun as <-. eauto.
    + destruct (iteration_err X Y same br h11 h21 h12 h22 ix iy s) as (e & s1 & E & _);
        [auto | congruence].
  - destruct (iteration_err X Y same br h11 h21 h12 h22 ix iy s) as (e & s1 & E & _);
      [auto | congruence].
Qed.

Lemma iters_footprint (X Y strideX offsetX strideY offsetY : Z) (br : branch)
    (h11 h21 h12 h22 : float) (n : nat) :
  forall s s' : state,
    iters n (iteration X Y (same_walk strideX strideY) br h11 h21 h12 h22)
      strideX strideY offsetX offsetY s = Ok tt s' ->
    footprint (log s')
    = footprint (log s)
      ++ flat_map (fun i => iteration_footprint br
                              (x_addr X strideX offsetX i)
                              (y_addr Y strideX offsetX strideY offsetY i))
           (seqZ 0 (Z.of_nat n)).
Proof.
  induction n as [|n IH]; intros s s' Hrun.
  - injection Hrun as <-. change (seqZ 0 (Z.of_nat 0)) with (@nil Z). simpl.
    now rewrite app_nil_r.
  - rewrite iters_snoc in Hrun.
    destruct (iters n _ strideX strideY offsetX offsetY s) as [[] s_n|e s_n] eqn:E;
      [|discriminate].
    apply iteration_returns in Hrun. destruct Hrun as (w & z & _ & _ & ->).
    rewrite footprint_iteration, (IH s s_n E).
    rewrite seqZ_S, flat_map_app, <- app_assoc. simpl flat_map.
    rewrite app_nil_r, Z.add_0_l, iteration_x_addr.
    now rewrite (iteration_y_addr Y strideX offsetX strideY offsetY n).
Qed.

(** X3. The accesses of a call that returns are fixed by its arguments and
    by the branch of the flag, not by the doubles in the vectors: the
    flag, the coefficients of the branch, then for each [i] from [0] to
    [N - 1] the two loads of iteration [i] followed by the store to [x]
    and the store to [y]. There are exactly [N] iterations. *)
Theorem accesses_of_a_call
    (N X strideX offsetX Y strideY offsetY P : Z) (s0 s' : state)
    (flag h11 h21 h12 h22 : float) :
  0 < N < I32.half ->
  param_is (cells s0) P flag h11 h21 h12 h22 ->
  (flag =? -2)%float = false ->
  c_drotm_ndarray N X strideX offsetX Y strideY offsetY P s0 = Ok tt s' ->
  footprint (log s')
  = footprint (log s0)
    ++ prologue_footprint (branch_of flag) P
    ++ flat_map (fun i => iteration_footprint (branch_of flag)
                            (x_addr X strideX offsetX i)
                            (y_addr Y strideX offsetX strideY offsetY i))
         (seqZ 0 N).
Proof.
  intros HN Hp Hf Hrun. rewrite kernel_is_rotate in Hrun by lia.
  rewrite (rotate_run N X strideX offsetX Y strideY offsetY P s0
             flag h11 h21 h12 h22) in Hrun by (auto; lia).
  apply iters_footprint in Hrun. rewrite Hrun. simpl log.
  rewrite footprint_app, footprint_prologue, <- app_assoc.
  now rewrite Z2Nat.id by lia.
Qed.

Lemma accesses_of_a_call_witness :
  footprint (log (final_state (c_drotm_ndarray 2 0 1 0 40 2 1 80 example_memory)))
  = footprint (log example_memory)
    ++ prologue_footprint (branch_of 0) 80
    ++ flat_map (fun i => iteration_footprint (branch_of 0)
                            (x_addr 0 1 0 i) (y_addr 40 1 0 2 1 i))
         (seqZ 0 2).
Proof.
  apply (accesses_of_a_call 2 0 1 0 40 2 1 80 example_memory _ 0 0 2 (-3) 0).
  - rewrite I32Facts.half_eq. lia.
  - repeat split; vm_compute; reflexivity.
  - reflexivity.
  - vm_compute. reflexivity.
Defined.

(** ** A call that fails on the way *)



(** ** A call in two parts *)

Lemma rotate_pairs_app (F : float -> float -> float * float) (xa ya : Z -> Z)
    (k r : nat) (m : list float) :
  Spec.rotate_pairs (k + r) F xa ya m
  = match Spec.rotate_pairs k F xa ya m with
    | Some m' => Spec.rotate_pairs r F (fun i => xa (Z.of_nat k + i))
                   (fun i => ya (Z.of_nat k + i)) m'
    | None => None
    end.
Proof.
  induction r as [|r IH].
  - rewrite Nat.add_0_r. now destruct (Spec.rotate_pairs k F xa ya m).
  - rewrite Nat.add_succ_r. simpl. rewrite IH.
    destruct (Spec.rotate_pairs k F xa ya m) as [m1|]; [|reflexivity].
    now rewrite Nat2Z.inj_add.
Qed.

Lemma rotate_pairs_same_addresses (F : float -> float -> float * float)
    (xa ya xa' ya' : Z -> Z) (n : nat) (m : list float) :
  (forall i, 0 <= i < Z.of_nat n -> xa i = xa' i /\ ya i = ya' i) ->
  Spec.rotate_pairs n F xa ya m = Spec.rotate_pairs n F xa' ya' m.
Proof.
  induction n as [|n IH]; intros H; [reflexivity|].
  simpl. rewrite IH by (intros i Hi; apply H; lia).
  destruct (H (Z.of_nat n)) as [-> ->]; [lia | reflexivity].
Qed.

Lemma addr_wrapped_offset (p o k : Z) : addr p (I32.wrap o + k) = addr p (o + k).
Proof.
  rewrite (Z.add_comm (I32.wrap o)), (Z.add_comm o).
  apply addr_shift, addr_wrap_index.
Qed.

(** X5. A call of [N] pairs leaves the cells that a call of the first [k]
    pairs followed by a call of the other [N - k], with the offsets moved
    on by [k] strides, leaves, provided the first part has not stored
    over [param]. *)
Theorem call_in_two_parts
    (N X strideX offsetX Y strideY offsetY P : Z) (s0 s_k : state)
    (flag h11 h21 h12 h22 : float) (k : Z) :
  0 < k < N -> N < I32.half ->
  param_is (cells s0) P flag h11 h21 h12 h22 ->
  (flag =? -2)%float = false ->
  c_drotm_ndarray k X strideX offsetX Y strideY offsetY P s0 = Ok tt s_k ->
  param_is (cells s_k) P flag h11 h21 h12 h22 ->
  returned_cells (c_drotm_ndarray N X strideX offsetX Y strideY offsetY P s0)
  = returned_cells
      (c_drotm_ndarray (N - k)
         X strideX (I32.add offsetX (I32.mul k strideX))
         Y strideY (I32.add offsetY (I32.mul k strideY)) P s_k).
Proof.
  intros Hk HN Hp Hf Hfirst Hp'.
  rewrite !kernel_is_rotate in * by lia.
  rewrite (rotate_refines N X strideX offsetX Y strideY offsetY P s0
             flag h11 h21 h12 h22) by (auto; lia).
  rewrite (rotate_refines (N - k) X strideX _ Y strideY _ P s_k
             flag h11 h21 h12 h22) by (auto; lia).
  pose proof (rotate_refines k X strideX offsetX Y strideY offsetY P s0
                flag h11 h21 h12 h22 ltac:(lia) Hp Hf) as Hpart.
  rewrite Hfirst in Hpart. simpl in Hpart.
  replace (Z.to_nat N) with (Z.to_nat k + Z.to_nat (N - k))%nat by lia.
  rewrite rotate_pairs_app, <- Hpart.
  apply rotate_pairs_same_addresses. intros i Hi.
  rewrite Z2Nat.id by lia.
  unfold x_addr, y_addr, x_index, y_index, I32.add, I32.mul.
  rewrite !I32Facts.wrap_add_r.
  destruct (same_walk strideX strideY);
    rewrite !addr_wrapped_offset; split; f_equal; lia.
Qed.

Lemma call_in_two_parts_witness :
  returned_cells (c_drotm_ndarray 5 0 1 0 40 (-1) 4 80 example_memory)
  = returned_cells
      (c_drotm_ndarray (5 - 2) 0 1 (I32.add 0 (I32.mul 2 1))
         40 (-1) (I32.add 4 (I32.mul 2 (-1))) 80
         (final_state (c_drotm_ndarray 2 0 1 0 40 (-1) 4 80 example_memory))).
Proof.
  apply (call_in_two_parts 5 0 1 0 40 (-1) 4 80 example_memory _ 0 0 2 (-3) 0 2).
  - lia.
  - rewrite I32Facts.half_eq. lia.
  - repeat split; vm_compute; reflexivity.
  - reflexivity.
  - vm_compute. reflexivity.
  - repeat split; vm_compute; reflexivity.
Defined.

(** ** Every call stops *)

Lemma bind_stopped {A B : Type} (c : M A) (k : A -> M B) (s : state) :
  stopped_at_access (c s) ->
  (forall a s', stopped_at_access (k a s')) ->
  stopped_at_access (bind c k s).
Proof.
  unfold bind. intros Hc Hk. destruct (c s) as [a s'|e s']; [apply Hk | exact Hc].
Qed.

Lemma f64_load_stopped (b k : Z) (s : state) : stopped_at_access (f64_load b k s).
Proof.
  unfold f64_load. cbv zeta. destruct (_ <? _); [exact I|].
  destruct (negb _); [exact I|]. now destruct (cells s !! _).
Qed.

Lemma f64_store_stopped (b k : Z) (v : float) (s : state) :
  stopped_at_access (f64_store b k v s).
Proof.
  unfold f64_store. cbv zeta. destruct (_ <? _); [exact I|].
  now destruct (negb _).
Qed.

Ltac stopped_steps :=
  repeat first
    [ apply f64_load_stopped
    | apply f64_store_stopped
    | apply bind_stopped; [|intros ? ?] ].

Lemma iters_stopped (body : Z -> Z -> M unit) (strideX strideY : Z) (n : nat) :
  (forall ix iy s, stopped_at_access (body ix iy s)) ->
  forall ix iy s, stopped_at_access (iters n body strideX strideY ix iy s).
Proof.
  intros Hb. induction n as [|n IH]; intros ix iy s; [exact I|].
  rewrite iters_S. specialize (Hb ix iy s).
  destruct (body ix iy s) as [[] s'|e s']; [apply IH | exact Hb].
Qed.

Lemma kernel_stopped (N X strideX offsetX Y strideY offsetY P : Z) (s : state) :
  N < I32.half ->
  stopped_at_access (c_drotm_ndarray N X strideX offsetX Y strideY offsetY P s).
Proof.
  intros HN. unfold c_drotm_ndarray, I32.le_s.
  destruct (N <=? 0) eqn:E; [exact I|]. apply Z.leb_gt in E.
  assert (HN' : 0 <= N < I32.half) by lia.
  unfold rotate.
  apply bind_stopped; [apply f64_load_stopped|]. intros dflag s1.
  destruct (dflag =? -2)%float; [exact I|].
  destruct (negb _);
    destruct (dflag <? 0)%float;
    [| destruct (dflag =? 0)%float | | destruct (dflag =? 0)%float];
    repeat (apply bind_stopped; [apply f64_load_stopped | intros ? ?]);
    unfold fuel_for;
    first
      [ rewrite (loop_same_iters _ N strideX strideY (S (Z.to_nat N)) (proj2 HN')
                   0 offsetX offsetY) by lia
      | rewrite (loop_gen_iters _ N strideX strideY (S (Z.to_nat N)) (proj2 HN')
                   0 offsetX offsetY) by lia ];
    apply iters_stopped; intros ix iy s2;
    unfold body_same_neg, body_same_zero, body_same_pos,
      body_gen_neg, body_gen_zero, body_gen_pos; cbv zeta; stopped_steps.
Qed.


(** ** Pairs that do not meet can be rotated in any order *)

Lemma cell_of_ne (a b : Z) :
  0 <= a -> 0 <= b -> a mod 8 = 0 -> b mod 8 = 0 -> a <> b -> cell_of a <> cell_of b.
Proof.
  intros Ha Hb Ham Hbm Hab Heq. unfold cell_of in Heq.
  apply Z2Nat.inj in Heq; [|apply Z.div_pos; lia|apply Z.div_pos; lia].
  apply Hab. rewrite (Z.div_mod a 8), (Z.div_mod b 8) by lia. lia.
Qed.

Lemma copy_pair_swap (F : float -> float -> float * float) (xa ya : Z -> Z)
    (orig : list float) (i j : Z) (m : list float) :
  (forall k, 0 <= xa k /\ 0 <= ya k) ->
  (i <> j -> xa j <> xa i /\ xa j <> ya i /\ ya j <> xa i /\ ya j <> ya i) ->
  match copy_pair F xa ya orig i m with
  | Some m' => copy_pair F xa ya orig j m'
  | None => None
  end
  = match copy_pair F xa ya orig j m with
    | Some m' => copy_pair F xa ya orig i m'
    | None => None
    end.
Proof.
  intros Hnn Hsep.
  destruct (Z.eq_dec i j) as [-> | Hij]; [reflexivity|].
  destruct (Hsep Hij) as (H1 & H2 & H3 & H4).
  unfold copy_pair.
  destruct (peek orig (xa i)) as [wi|] eqn:Exi;
    destruct (peek orig (ya i)) as [zi|] eqn:Eyi;
    destruct (peek orig (xa j)) as [wj|] eqn:Exj;
    destruct (peek orig (ya j)) as [zj|] eqn:Eyj; try reflexivity.
  f_equal.
  assert (Axi : xa i mod 8 = 0) by (apply (peek_aligned orig); rewrite Exi; eauto).
  assert (Ayi : ya i mod 8 = 0) by (apply (peek_aligned orig); rewrite Eyi; eauto).
  assert (Axj : xa j mod 8 = 0) by (apply (peek_aligned orig); rewrite Exj; eauto).
  assert (Ayj : ya j mod 8 = 0) by (apply (peek_aligned orig); rewrite Eyj; eauto).
  pose proof (Hnn i) as [? ?]. pose proof (Hnn j) as [? ?].
  assert (cell_of (xa j) <> cell_of (xa i)) by (apply cell_of_ne; auto).
  assert (cell_of (xa j) <> cell_of (ya i)) by (apply cell_of_ne; auto).
  assert (cell_of (ya j) <> cell_of (xa i)) by (apply cell_of_ne; auto).
  assert (cell_of (ya j) <> cell_of (ya i)) by (apply cell_of_ne; auto).
  rewrite (list_insert_insert_ne _ (cell_of (xa j)) (cell_of (ya i))) by auto.
  rewrite (list_insert_insert_ne _ (cell_of (xa j)) (cell_of (xa i))) by auto.
  rewrite (list_insert_insert_ne _ (cell_of (ya j)) (cell_of (ya i))) by auto.
  rewrite (list_insert_insert_ne _ (cell_of (ya j)) (cell_of (xa i))) by auto.
  reflexivity.
Qed.

Lemma copy_pairs_permutation (F : float -> float -> float * float) (xa ya : Z -> Z)
    (orig : list float) (l l' : list Z) :
  (forall k, 0 <= xa k /\ 0 <= ya k) ->
  Permutation l l' ->
  (forall i j, In i l -> In j l -> i <> j ->
     xa j <> xa i /\ xa j <> ya i /\ ya j <> xa i /\ ya j <> ya i) ->
  forall m, copy_pairs F xa ya orig l m = copy_pairs F xa ya orig l' m.
Proof.
  intros Hnn Hperm. induction Hperm as [|x l l' Hperm IH|x y l|l l' l'' H1 IH1 H2 IH2];
    intros Hsep m.
  - reflexivity.
  - simpl. destruct (copy_pair F xa ya orig x m) as [m'|]; [|reflexivity].
    apply IH. intros i j Hi Hj. apply Hsep; now right.
  - simpl.
    pose proof (copy_pair_swap F xa ya orig y x m Hnn) as Hswap.
    destruct (copy_pair F xa ya orig y m) as [m1|] eqn:E1;
      destruct (copy_pair F xa ya orig x m) as [m2|] eqn:E2.
    + rewrite Hswap; [|intros Hne; apply Hsep; simpl; auto].
      reflexivity.
    + rewrite Hswap; [|intros Hne; apply Hsep; simpl; auto]. reflexivity.
    + rewrite <- Hswap; [|intros Hne; apply Hsep; simpl; auto]. reflexivity.
    + reflexivity.
  - rewrite IH1 by exact Hsep. apply IH2.
    intros i j Hi Hj.
    apply Hsep; apply (Permutation_in _ (Permutation_sym H1)); assumption.
Qed.

Lemma copy_pairs_snoc (F : float -> float -> float * float) (xa ya : Z -> Z)
    (orig : list float) (l : list Z) (i : Z) :
  forall m,
    copy_pairs F xa ya orig (l ++ [i]) m
    = match copy_pairs F xa ya orig l m with
      | Some m' => copy_pair F xa ya orig i m'
      | None => None
      end.
Proof.
  induction l as [|j l IH]; intros m; simpl.
  - now destruct (copy_pair F xa ya orig i m).
  - destruct (copy_pair F xa ya orig j m); [apply IH | reflexivity].
Qed.

Lemma rotate_from_copy_pairs (F : float -> float -> float * float) (xa ya : Z -> Z)
    (orig m : list float) (n : nat) :
  Spec.rotate_from_copy n F xa ya orig m
  = copy_pairs F xa ya orig (seqZ 0 (Z.of_nat n)) m.
Proof.
  induction n as [|n IH]; [reflexivity|].
  rewrite seqZ_S, copy_pairs_snoc, <- IH, Z.add_0_l. reflexivity.
Qed.

Lemma copy_pairs_fmap (F : float -> float -> float * float) (xa ya : Z -> Z)
    (g : Z -> Z) (orig : list float) (l : list Z) :
  forall m,
    copy_pairs F (fun i => xa (g i)) (fun i => ya (g i)) orig l m
    = copy_pairs F xa ya orig (g <$> l) m.
Proof.
  induction l as [|i l IH]; intros m; [reflexivity|].
  simpl. change (copy_pair F (fun i => xa (g i)) (fun i => ya (g i)) orig i m)
    with (copy_pair F xa ya orig (g i) m).
  destruct (copy_pair F xa ya orig (g i) m); [apply IH | reflexivity].
Qed.

Lemma reversed_indices (n : Z) : Permutation ((fun i => n - 1 - i) <$> seqZ 0 n) (seqZ 0 n).
Proof.
  apply NoDup_Permutation.
  - apply NoDup_fmap_2; [|apply NoDup_seqZ]. intros a b H. lia.
  - apply NoDup_seqZ.
  - intros k. rewrite list_elem_of_fmap. setoid_rewrite elem_of_seqZ. split.
    + intros (i & -> & Hi). lia.
    + intros Hk. exists (n - 1 - k). lia.
Qed.

(** Pairs that do not meet, rotated from the last to the first, leave
    the cells they leave rotated from the first to the last. *)
Lemma rotate_pairs_reversed (F : float -> float -> float * float) (xa ya : Z -> Z)
    (n : nat) (m : list float) :
  (forall k, 0 <= xa k /\ 0 <= ya k) ->
  Spec.separate (Z.of_nat n) xa ya ->
  Spec.rotate_pairs n F (fun i => xa (Z.of_nat n - 1 - i))
    (fun i => ya (Z.of_nat n - 1 - i)) m
  = Spec.rotate_pairs n F xa ya m.
Proof.
  intros Hnn Hsep.
  assert (Hall : forall i j, 0 <= i < Z.of_nat n -> 0 <= j < Z.of_nat n -> i <> j ->
            xa j <> xa i /\ xa j <> ya i /\ ya j <> xa i /\ ya j <> ya i).
  { intros i j Hi Hj Hne. destruct (Z.lt_total i j) as [Hlt | [Heq | Hgt]].
    - apply Hsep; lia.
    - contradiction.
    - destruct (Hsep j i) as (H1 & H2 & H3 & H4); [lia | lia |].
      repeat split; congruence. }
  rewrite (rotate_pairs_from_copy F xa ya n m Hnn Hsep).
  rewrite rotate_pairs_from_copy.
  - rewrite !rotate_from_copy_pairs.
    rewrite (copy_pairs_fmap F xa ya (fun i => Z.of_nat n - 1 - i)).
    apply copy_pairs_permutation; [exact Hnn | apply reversed_indices |].
    intros i j Hi Hj Hne.
    apply list_elem_of_In, list_elem_of_fmap in Hi. destruct Hi as (i' & -> & Hi).
    apply list_elem_of_In, list_elem_of_fmap in Hj. destruct Hj as (j' & -> & Hj).
    apply elem_of_seqZ in Hi, Hj. apply Hall; lia.
  - intros k. split; apply Hnn.
  - intros i j Hi Hj. apply Hall; lia.
Qed.

(** ** [main] with both strides negated *)

Lemma c_drotm_offsets (N X strideX Y strideY P : Z) (s : state) :
  c_drotm N X strideX Y strideY P s
  = c_drotm_ndarray N X strideX (main_offset N strideX)
      Y strideY (main_offset N strideY) P s.
Proof. reflexivity. Qed.

Lemma main_offset_addr (p N stride k : Z) :
  addr p (main_offset N stride + k)
  = addr p ((if stride <=? 0 then (1 - N) * stride else 0) + k).
Proof.
  unfold main_offset, I32.le_s, I32.mul, I32.sub.
  destruct (stride <=? 0); [|reflexivity].
  now rewrite I32Facts.wrap_mul_l, addr_wrapped_offset.
Qed.

(** Under [c_drotm] the [y] element of iteration [i] is at the index
    the specification names: in the branch of equal positive strides
    both offsets are zero. *)
Lemma main_y_addr (Y N strideX strideY i : Z) :
  y_addr Y strideX (main_offset N strideX) strideY (main_offset N strideY) i
  = x_addr Y strideY (main_offset N strideY) i.
Proof.
  unfold y_addr, x_addr, x_index, y_index, same_walk, I32.ne.
  destruct (strideX =? strideY) eqn:E; [|reflexivity].
  apply Z.eqb_eq in E. subst strideY. now destruct (negb _).
Qed.

Lemma main_walk_reversed (p N stride i : Z) :
  x_addr p (- stride) (main_offset N (- stride)) i
  = x_addr p stride (main_offset N stride) (N - 1 - i).
Proof.
  unfold x_addr, x_index. rewrite !main_offset_addr.
  destruct (Z.leb_spec (- stride) 0), (Z.leb_spec stride 0); f_equal; try ring.
  - assert (stride = 0) by lia. subst. ring.
  - lia.
Qed.

Lemma returned_cells_main (N xptr strideX yptr strideY pptr : Z) (s : state) :
  returned_cells (Module_main N xptr strideX yptr strideY pptr s)
  = returned_cells
      (c_drotm (I32.wrap N) (I32.wrap xptr) (I32.wrap strideX)
         (I32.wrap yptr) (I32.wrap strideY) (I32.wrap pptr) s).
Proof.
  rewrite Module_main_unfold. now destruct (c_drotm _ _ _ _ _ _ s).
Qed.

(** X7. The method [main] called with both strides negated walks both
    vectors the other way round and so meets the same pairs, last first.
    When no pair has an element in common with another pair, it leaves
    the cells the call with the strides as they are leaves. *)
Theorem main_with_negated_strides
    (N xptr strideX yptr strideY pptr : Z) (s0 : state)
    (flag h11 h21 h12 h22 : float) :
  0 < N < I32.half ->
  I32.in_range strideX -> I32.in_range (- strideX) ->
  I32.in_range strideY -> I32.in_range (- strideY) ->
  param_is (cells s0) (I32.wrap pptr) flag h11 h21 h12 h22 ->
  (flag =? -2)%float = false ->
  Spec.separate N (x_addr xptr strideX (main_offset N strideX))
                  (x_addr yptr strideY (main_offset N strideY)) ->
  returned_cells (Module_main N xptr (- strideX) yptr (- strideY) pptr s0)
  = returned_cells (Module_main N xptr strideX yptr strideY pptr s0).
Proof.
  intros HN HX HX' HY HY' Hp Hf Hsep.
  assert (HNr : I32.in_range N)
    by (unfold I32.in_range; rewrite I32Facts.half_eq in *; lia).
  rewrite !returned_cells_main, !c_drotm_offsets.
  rewrite (I32Facts.wrap_id N HNr), (I32Facts.wrap_id _ HX), (I32Facts.wrap_id _ HX'),
    (I32Facts.wrap_id _ HY), (I32Facts.wrap_id _ HY').
  rewrite (kernel_refines N _ (- strideX) _ _ (- strideY) _ _ s0
             flag h11 h21 h12 h22 HN Hp Hf).
  rewrite (kernel_refines N _ strideX _ _ strideY _ _ s0
             flag h11 h21 h12 h22 HN Hp Hf).
  set (xa := x_addr xptr strideX (main_offset N strideX)) in *.
  set (ya := x_addr yptr strideY (main_offset N strideY)) in *.
  set (F := Spec.by_sign flag h11 h21 h12 h22).
  rewrite (rotate_pairs_same_addresses F
             (x_addr (I32.wrap xptr) strideX (main_offset N strideX))
             (y_addr (I32.wrap yptr) strideX (main_offset N strideX)
                strideY (main_offset N strideY))
             xa ya (Z.to_nat N)).
  - rewrite (rotate_pairs_same_addresses F
               (x_addr (I32.wrap xptr) (- strideX) (main_offset N (- strideX)))
               (y_addr (I32.wrap yptr) (- strideX) (main_offset N (- strideX))
                  (- strideY) (main_offset N (- strideY)))
               (fun i => xa (Z.of_nat (Z.to_nat N) - 1 - i))
               (fun i => ya (Z.of_nat (Z.to_nat N) - 1 - i)) (Z.to_nat N)).
    + apply rotate_pairs_reversed.
      * intros k. split; apply addr_nonneg.
      * rewrite Z2Nat.id by lia. exact Hsep.
    + intros i Hi. rewrite Z2Nat.id by lia. subst xa ya.
      rewrite main_y_addr. unfold x_addr at 1 3. rewrite !addr_wrap_pointer.
      split; apply main_walk_reversed.
  - intros i Hi. subst xa ya. rewrite main_y_addr.
    unfold x_addr at 1 3. rewrite !addr_wrap_pointer. split; reflexivity.
Qed.

Lemma main_with_negated_strides_witness :
  returned_cells (Module_main 3 0 (- 1) 40 (- 2) 80 example_memory)
  = returned_cells (Module_main 3 0 1 40 2 80 example_memory).
Proof.
  apply (main_with_negated_strides 3 0 1 40 2 80 example_memory 0 0 2 (-3) 0).
  - rewrite I32Facts.half_eq. lia.
  - unfold I32.in_range. rewrite I32Facts.half_eq. lia.
  - unfold I32.in_range. rewrite I32Facts.half_eq. lia.
  - unfold I32.in_range. rewrite I32Facts.half_eq. lia.
  - unfold I32.in_range. rewrite I32Facts.half_eq. lia.
  - repeat split; vm_compute; reflexivity.
  - reflexivity.
  - intros i j Hi Hj.
    assert (H : (i = 0 /\ j = 1) \/ (i = 0 /\ j = 2) \/ (i = 1 /\ j = 2)) by lia.
    destruct H as [[-> ->] | [[-> ->] | [-> ->]]];
      vm_compute; repeat split; intros; discriminate.
Defined.

(** ** A call of one pair *)

Lemma iters_ext_bounded (body body' : Z -> Z -> M unit)
    (strideX strideY strideX' strideY' : Z) (n : nat) :
  forall (ix iy ix' iy' : Z) (s : state),
    (forall k, (k < n)%nat ->
       body (walk k strideX ix) (walk k strideY iy)
       = body' (walk k strideX' ix') (walk k strideY' iy')) ->
    iters n body strideX strideY ix iy s = iters n body' strideX' strideY' ix' iy' s.
Proof.
  induction n as [|n IH]; intros ix iy ix' iy' s H; [reflexivity|].
  rewrite !iters_S. pose proof (H O ltac:(lia)) as H0. simpl walk in H0. rewrite <- H0.
  destruct (body ix iy s) as [[] s'|e s']; [|reflexivity].
  apply IH. intros k Hk. rewrite !walk_shift. apply (H (S k)). lia.
Qed.

(** Two calls of the same length on the same [param] whose iterations
    meet the same addresses are the same computation, whatever strides
    and branches of the stride test produce the addresses. *)
Lemma rotate_ext_strides
    (N X strideX offsetX Y strideY offsetY X' strideX' offsetX' Y' strideY' offsetY' P : Z) :
  0 <= N < I32.half ->
  (forall br h11 h21 h12 h22 k, (k < Z.to_nat N)%nat ->
     iteration X Y (same_walk strideX strideY) br h11 h21 h12 h22
       (walk k strideX offsetX) (walk k strideY offsetY)
     = iteration X' Y' (same_walk strideX' strideY') br h11 h21 h12 h22
         (walk k strideX' offsetX') (walk k strideY' offsetY')) ->
  forall s : state,
    rotate N X strideX offsetX Y strideY offsetY P s
    = rotate N X' strideX' offsetX' Y' strideY' offsetY' P s.
Proof.
  intros HN H s. unfold rotate, bind.
  destruct (f64_load P 0 s) as [dflag s1|e s1]; [|reflexivity].
  destruct (dflag =? -2)%float; [reflexivity|].
  change (negb (I32.ne strideX strideY || I32.le_s strideX 0))
    with (same_walk strideX strideY) in *.
  change (negb (I32.ne strideX' strideY' || I32.le_s strideX' 0))
    with (same_walk strideX' strideY') in *.
  destruct (same_walk strideX strideY), (same_walk strideX' strideY');
    destruct (dflag <? 0)%float;
    try destruct (dflag =? 0)%float;
    repeat match goal with
           | |- context [f64_load P ?o ?st] =>
               destruct (f64_load P o st) as [? ?|? ?]; [|reflexivity]
           end;
    unfold fuel_for;
    repeat first
      [ rewrite (loop_same_iters _ N strideX strideY (S (Z.to_nat N)) (proj2 HN)
                   0 offsetX offsetY) by lia
      | rewrite (loop_same_iters _ N strideX' strideY' (S (Z.to_nat N)) (proj2 HN)
                   0 offsetX' offsetY') by lia
      | rewrite (loop_gen_iters _ N strideX strideY (S (Z.to_nat N)) (proj2 HN)
                   0 offsetX offsetY) by lia
      | rewrite (loop_gen_iters _ N strideX' strideY' (S (Z.to_nat N)) (proj2 HN)
                   0 offsetX' offsetY') by lia ];
    rewrite ?Z.sub_0_r;
    apply iters_ext_bounded; intros k Hk;
    first [ exact (H Neg _ _ _ _ k Hk)
          | exact (H Zero 0%float _ _ 0%float k Hk)
          | exact (H Pos _ 0%float 0%float _ k Hk) ].
Qed.

(** X8. With [N = 1] the strides do not matter to [main]: whatever they
    are, the call rotates the pair of the first doubles of [x] and [y],
    with the same loads and stores and the same result. *)
Theorem single_pair_ignores_strides
    (xptr strideX strideX' yptr strideY strideY' pptr : Z) (s : state) :
  Module_main 1 xptr strideX yptr strideY pptr s
  = Module_main 1 xptr strideX' yptr strideY' pptr s.
Proof.
  rewrite !Module_main_unfold, !c_drotm_offsets.
  change (I32.wrap 1) with 1.
  rewrite !(kernel_is_rotate 1) by lia.
  rewrite (rotate_ext_strides 1
             (I32.wrap xptr) (I32.wrap strideX) (main_offset 1 (I32.wrap strideX))
             (I32.wrap yptr) (I32.wrap strideY) (main_offset 1 (I32.wrap strideY))
             (I32.wrap xptr) (I32.wrap strideX') (main_offset 1 (I32.wrap strideX'))
             (I32.wrap yptr) (I32.wrap strideY') (main_offset 1 (I32.wrap strideY'))).
  - reflexivity.
  - rewrite I32Facts.half_eq. lia.
  - intros br h11 h21 h12 h22 k Hk.
    assert (k = O) by (change (Z.to_nat 1) with 1%nat in Hk; lia). subst k.
    simpl walk. rewrite !iteration_by_address.
    assert (Hzero : forall p stride, addr p (main_offset 1 stride) = addr p 0).
    { intros p stride. rewrite <- (Z.add_0_r (main_offset 1 stride)), main_offset_addr.
      f_equal. destruct (stride <=? 0); lia. }
    f_equal; [apply eq_trans with (addr (I32.wrap xptr) 0);
              [apply Hzero | symmetry; apply Hzero]|].
    destruct (same_walk _ _), (same_walk _ _); rewrite !Hzero; reflexivity.
Qed.
